(** * generic-device-plugin: device discovery, inventory refresh and allocation

    A shallow embedding of the discovery and allocation engine of
    [deviceplugin/generic.go], [deviceplugin/path.go] and
    [deviceplugin/usb.go], together with the parts of the Go standard library
    the engine relies on ([strconv.FormatUint], [fmt.Sprintf], [sort.Strings],
    [crypto/sha1]).

    Go strings are byte strings and are modelled by [string]; a [[]byte] is a
    [list Byte.byte]; a Go [map[string]device] is a [gmap string device].
    A Go function that returns [(T, error)] and may also panic on an
    out-of-range index returns an [outcome T]. *)

From Stdlib Require Import ZArith NArith List String Ascii Lia.
From Stdlib Require Import DecimalString DecimalN Sorted.
From Stdlib Require HexadecimalString HexadecimalN OrdersEx.
From stdpp Require Import gmap strings list fin_maps.

Open Scope string_scope.
Open Scope list_scope.

(** ** Outcomes of Go calls *)

(** The errors the engine returns. [ErrBadPattern] is the only error of
    [filepath.Glob]; [ErrReadDir] is a failure of [os.ReadDir];
    [ErrDiscover] is the wrapping done by [refreshDevices]; the two remaining
    ones are the errors of [Allocate], carrying the requested id. *)
Inductive error : Type :=
| ErrBadPattern (pattern : string)
| ErrReadDir (dir : string)
| ErrDiscover (cause : error)
| ErrDoesNotExist (id : string)
| ErrNotHealthy (id : string).

(** What a run-time panic reports. *)
Inductive panic : Type :=
| IndexOutOfRange (index len : nat).

Inductive outcome (A : Type) : Type :=
| Ok (a : A)
| Err (e : error)
| Panic (p : panic).

Arguments Ok {A} a.
Arguments Err {A} e.
Arguments Panic {A} p.

#[global] Instance outcome_ret : MRet outcome := fun A a => Ok a.

#[global] Instance outcome_bind : MBind outcome := fun A B k c =>
  match c with
  | Ok a => k a
  | Err e => Err e
  | Panic p => Panic p
  end.

(** A Go [for k, a := range l { body }] whose body may return early with an
    error or a panic; [s] is the state the body updates. *)
Fixpoint for_range_from {A St : Type} (k : nat) (l : list A)
    (body : nat -> A -> St -> outcome St) (s : St) : outcome St :=
  match l with
  | [] => Ok s
  | a :: l' => s' ← body k a s; for_range_from (S k) l' body s'
  end.

Definition for_range {A St : Type} (l : list A)
    (body : nat -> A -> St -> outcome St) (s : St) : outcome St :=
  for_range_from 0 l body s.

(** A Go [for i := 0; i < n; i++ { body }]. *)
Definition for_upto {St : Type} (n : nat) (body : nat -> St -> outcome St)
    (s : St) : outcome St :=
  for_range (seq 0 n) (fun _ i => body i) s.

(** [xs[i]] on a slice: a panic when [i] is out of range. *)
Definition index {A : Type} (xs : list A) (i : nat) : outcome A :=
  match xs !! i with
  | Some x => Ok x
  | None => Panic (IndexOutOfRange i (length xs))
  end.

(** ** Bytes and strings *)

Definition bytes (s : string) : list Byte.byte := list_byte_of_string s.

Definition byte_of_Z (z : Z) : Byte.byte :=
  match Byte.of_N (Z.to_N (z mod 256)) with
  | Some b => b
  | None => Byte.x00
  end.

Definition Z_of_byte (b : Byte.byte) : Z := Z.of_N (Byte.to_N b).

(** ** strconv and fmt *)

Module strconv.

(** [strconv.FormatUint(n, 10)]: the decimal digits of [n], most
    significant first, ["0"] for zero. *)
Definition FormatUint (n : N) : string :=
  NilEmpty.string_of_uint (N.to_uint n).

Definition hexval (c : ascii) : option N :=
  let n := N_of_ascii c in
  if (48 <=? n)%N && (n <=? 57)%N then Some (n - 48)%N
  else if (97 <=? n)%N && (n <=? 102)%N then Some (n - 87)%N
  else if (65 <=? n)%N && (n <=? 70)%N then Some (n - 55)%N
  else None.

Fixpoint parse_hex (s : string) (acc : N) : option N :=
  match s with
  | EmptyString => Some acc
  | String c s' =>
      match hexval c with
      | Some d => parse_hex s' (acc * 16 + d)%N
      | None => None
      end
  end.

(** [strconv.ParseUint(s, 16, 16)]: [None] for the empty string, for a
    character that is no hexadecimal digit and for a value that does not
    fit 16 bits. *)
Definition ParseUint16 (s : string) : option N :=
  match s with
  | EmptyString => None
  | _ =>
      match parse_hex s 0%N with
      | Some n => if (n <? 65536)%N then Some n else None
      | None => None
      end
  end.

End strconv.

Module fmt.

(** The flags of one verb, as [fmt] collects them. *)
Record fmtFlags : Type := {
  plus : bool;
  minus : bool;
  zero : bool;
  wid : option nat
}.

Definition noFlags : fmtFlags :=
  {| plus := false; minus := false; zero := false; wid := None |}.

Fixpoint repeat_char (c : ascii) (n : nat) : string :=
  match n with
  | O => EmptyString
  | S n' => String c (repeat_char c n')
  end.

(** The method [fmtInteger] of [fmt] for verb [d] on an unsigned value: with
    the zero flag and a width the digits are padded with zeros to the width,
    one less when a sign is printed; the plus flag prints a sign also for
    unsigned values; what is still shorter than the width is padded with
    spaces. *)
Definition fmtInteger (f : fmtFlags) (u : N) : string :=
  let digits := strconv.FormatUint u in
  let prec :=
    match wid f with
    | Some w => if zero f then (if plus f then w - 1 else w) else 0
    | None => 0
    end in
  let padded := repeat_char "0" (prec - String.length digits) +:+ digits in
  let signed := if plus f then String "+" padded else padded in
  match wid f with
  | Some w =>
      let fill := repeat_char " " (w - String.length signed) in
      if minus f then signed +:+ fill else fill +:+ signed
  | None => signed
  end.

Definition digit_of (c : ascii) : option nat :=
  let n := nat_of_ascii c in
  if (48 <=? n)%nat && (n <=? 57)%nat then Some (n - 48)%nat else None.

(** Where [doPrintf] is in the format string. *)
Inductive pstate : Type :=
| Literal
| InFlags (f : fmtFlags)
| InWidth (f : fmtFlags).

(** One verb with its flags: the text it prints and the operands left.
    Only [d] and the literal percent sign are modelled; a missing operand
    prints as in Go. *)
Definition printVerb (c : ascii) (f : fmtFlags) (args : list N)
  : string * list N :=
  if Ascii.eqb c "d" then
    match args with
    | a :: args' => (fmtInteger f a, args')
    | [] => ("%!d(MISSING)", [])
    end
  else if Ascii.eqb c "%" then ("%", args)
  else ("%!" +:+ String c "(NOVERB)", args).

(** [fmt.Sprintf] for formats made of literal text and [d] verbs with the
    flags [+], [-], [0] and a width, over unsigned operands. *)
Fixpoint doPrintf (format : string) (st : pstate) (args : list N) : string :=
  match format with
  | EmptyString => EmptyString
  | String c rest =>
      match st with
      | Literal =>
          if Ascii.eqb c "%" then doPrintf rest (InFlags noFlags) args
          else String c (doPrintf rest Literal args)
      | InFlags f =>
          if Ascii.eqb c "+" then
            doPrintf rest (InFlags {| plus := true; minus := minus f;
                                      zero := zero f; wid := wid f |}) args
          else if Ascii.eqb c "-" then
            doPrintf rest (InFlags {| plus := plus f; minus := true;
                                      zero := false; wid := wid f |}) args
          else if Ascii.eqb c "0" then
            doPrintf rest (InFlags {| plus := plus f; minus := minus f;
                                      zero := negb (minus f); wid := wid f |}) args
          else
            match digit_of c with
            | Some d =>
                doPrintf rest (InWidth {| plus := plus f; minus := minus f;
                                          zero := zero f; wid := Some d |}) args
            | None =>
                let '(out, args') := printVerb c f args in
                out +:+ doPrintf rest Literal args'
            end
      | InWidth f =>
          match digit_of c with
          | Some d =>
              doPrintf rest (InWidth {| plus := plus f; minus := minus f;
                                        zero := zero f;
                                        wid := Some (10 * default 0 (wid f) + d) |}) args
          | None =>
              let '(out, args') := printVerb c f args in
              out +:+ doPrintf rest Literal args'
          end
      end
  end.

Definition Sprintf (format : string) (args : list N) : string :=
  doPrintf format Literal args.

Definition hexdigit (n : N) : ascii :=
  match String.get (N.to_nat n) "0123456789abcdef" with
  | Some c => c
  | None => "0"%char
  end.

(** [fmt.Sprintf("%x", b)] for a byte slice [b]: two lowercase hexadecimal
    digits per byte. *)
Fixpoint Sprintf_x (b : list Byte.byte) : string :=
  match b with
  | [] => EmptyString
  | x :: b' =>
      let n := Byte.to_N x in
      String (hexdigit (n / 16)) (String (hexdigit (n mod 16)) (Sprintf_x b'))
  end.

End fmt.

(** ** crypto/sha1 *)

Module sha1.

Local Open Scope Z_scope.

Definition w32 (x : Z) : Z := x mod 2 ^ 32.

Definition rotl (n x : Z) : Z :=
  Z.lor (w32 (Z.shiftl x n)) (Z.shiftr x (32 - n)).

(** The message followed by the bit 1, zeros up to 56 modulo 64, and the
    length in bits as a 64-bit big-endian number. *)
Definition be_bytes (width : nat) (x : Z) : list Z :=
  map (fun i => Z.shiftr x (8 * Z.of_nat i) mod 256) (rev (seq 0 width)).

Definition pad (msg : list Z) : list Z :=
  let len := Z.of_nat (length msg) in
  let zeros := Z.to_nat ((55 - len) mod 64) in
  msg ++ [128] ++ repeat 0 zeros ++ be_bytes 8 (8 * len).

Fixpoint be_words (n : nat) (bs : list Z) : list Z :=
  match n with
  | O => []
  | S n' =>
      match bs with
      | b0 :: b1 :: b2 :: b3 :: bs' =>
          (b0 * 2 ^ 24 + b1 * 2 ^ 16 + b2 * 2 ^ 8 + b3) :: be_words n' bs'
      | _ => []
      end
  end.

(** The message schedule, newest word first: [wrev] holds w[t-1], w[t-2], ... *)
Fixpoint schedule (n : nat) (wrev : list Z) : list Z :=
  match n with
  | O => wrev
  | S n' =>
      let w := rotl 1 (Z.lxor (Z.lxor (nth 2 wrev 0) (nth 7 wrev 0))
                              (Z.lxor (nth 13 wrev 0) (nth 15 wrev 0))) in
      schedule n' (w :: wrev)
  end.

Definition state : Type := (Z * Z * Z * Z * Z)%type.

Definition round (t : nat) (w : Z) (s : state) : state :=
  let '(a, b, c, d, e) := s in
  let '(f, k) :=
    if (t <? 20)%nat then
      (Z.lor (Z.land b c) (Z.land (Z.lxor b (Z.ones 32)) d), 0x5A827999)
    else if (t <? 40)%nat then (Z.lxor (Z.lxor b c) d, 0x6ED9EBA1)
    else if (t <? 60)%nat then
      (Z.lor (Z.lor (Z.land b c) (Z.land b d)) (Z.land c d), 0x8F1BBCDC)
    else (Z.lxor (Z.lxor b c) d, 0xCA62C1D6) in
  (w32 (rotl 5 a + f + e + k + w), a, rotl 30 b, c, d).

Fixpoint rounds (t : nat) (ws : list Z) (s : state) : state :=
  match ws with
  | [] => s
  | w :: ws' => rounds (S t) ws' (round t w s)
  end.

Definition block (h : state) (bs : list Z) : state :=
  let ws := rev (schedule 64 (rev (be_words 16 bs))) in
  let '(h0, h1, h2, h3, h4) := h in
  let '(a, b, c, d, e) := rounds 0 ws h in
  (w32 (h0 + a), w32 (h1 + b), w32 (h2 + c), w32 (h3 + d), w32 (h4 + e)).

Fixpoint blocks (n : nat) (h : state) (bs : list Z) : state :=
  match n with
  | O => h
  | S n' => blocks n' (block h (firstn 64 bs)) (skipn 64 bs)
  end.

Definition init : state :=
  (0x67452301, 0xEFCDAB89, 0x98BADCFE, 0x10325476, 0xC3D2E1F0).

(** The 20-byte digest of a message. *)
Definition digest (msg : list Byte.byte) : list Byte.byte :=
  let padded := pad (map Z_of_byte msg) in
  let '(h0, h1, h2, h3, h4) := blocks (length padded / 64)%nat init padded in
  map byte_of_Z (flat_map (be_bytes 4) [h0; h1; h2; h3; h4]).

(** The [hash.Hash] returned by [sha1.New()]: the bytes written so far. *)
Definition Hash : Type := list Byte.byte.
Definition New : Hash := [].
Definition Write (h : Hash) (p : list Byte.byte) : Hash := h ++ p.
Definition Sum (h : Hash) : list Byte.byte := digest h.

End sha1.

(** ** sort *)

Module sort.

Fixpoint insert (s : string) (l : list string) : list string :=
  match l with
  | [] => [s]
  | x :: l' => if String.leb s x then s :: l else x :: insert s l'
  end.

(** [sort.Strings]: increasing byte-wise order. *)
Definition Strings (l : list string) : list string :=
  fold_right insert [] l.

End sort.

(** ** The kubelet device plugin API, [v1beta1] *)

Module v1beta1.

Definition Healthy : string := "Healthy".
Definition Unhealthy : string := "Unhealthy".

Record Device : Type := {
  ID : string;
  Health : string
}.

Record DeviceSpec : Type := {
  ds_ContainerPath : string;
  ds_HostPath : string;
  ds_Permissions : string
}.

Record Mount : Type := {
  m_ContainerPath : string;
  m_HostPath : string;
  m_ReadOnly : bool
}.

Record ContainerAllocateRequest : Type := {
  DevicesIDs : list string
}.

Record AllocateRequest : Type := {
  ContainerRequests : list ContainerAllocateRequest
}.

Record ContainerAllocateResponse : Type := {
  Mounts : list Mount;
  Devices : list DeviceSpec
}.

Record AllocateResponse : Type := {
  ContainerResponses : list ContainerAllocateResponse
}.

End v1beta1.

(** ** The host: what [filepath.Glob], [os.ReadDir] and [os.ReadFile] see *)

Record DirEntry : Type := {
  Name : string;
  IsDir : bool
}.

Record Host : Type := {
  (** [filepath.Glob]: [None] is [ErrBadPattern], its only error. *)
  Glob : string -> option (list string);
  (** [os.ReadDir]: [None] when the directory cannot be read. *)
  ReadDir : string -> option (list DirEntry);
  (** [os.ReadFile]: [None] when the file cannot be read. *)
  ReadFile : string -> option string
}.

(** ** Device specifications (generic.go, path.go, usb.go) *)

Definition PathType : Type := string.
Definition DevicePathType : PathType := "Device".
Definition MountPathType : PathType := "Mount".

Record Path : Type := {
  p_Path : string;
  p_MountPath : string;
  p_Permissions : string;
  p_ReadOnly : bool;
  p_Type : PathType
}.

Definition USBID : Type := N.

Record USBSpec : Type := {
  us_Vendor : USBID;
  us_Product : USBID
}.

Record Group : Type := {
  Paths : list Path;
  USBSpecs : list USBSpec;
  Count : nat
}.

Record DeviceSpec : Type := {
  dsName : string;
  Groups : list Group
}.

(** [device] wraps [v1beta1.Device] with what [Allocate] hands out. *)
Record device : Type := {
  Device : v1beta1.Device;
  deviceSpecs : list v1beta1.DeviceSpec;
  mounts : list v1beta1.Mount
}.

Definition dID (d : device) : string := v1beta1.ID (Device d).
Definition dHealth (d : device) : string := v1beta1.Health (Device d).

Record GenericPlugin : Type := {
  ds : DeviceSpec;
  devices : gmap string device;
  (** The value last set on the gauge and the total added to the counter. *)
  deviceGauge : nat;
  allocationsCounter : nat
}.

Definition NewGenericPlugin (spec : DeviceSpec) : GenericPlugin :=
  {| ds := spec; devices := ∅; deviceGauge := 0; allocationsCounter := 0 |}.

(** [DeviceSpec.Default]. *)
Definition Default_Path (p : Path) : Path :=
  let type := if String.eqb (p_Type p) "" then DevicePathType else p_Type p in
  let permissions :=
    if String.eqb type DevicePathType && String.eqb (p_Permissions p) ""
    then "mrw" else p_Permissions p in
  {| p_Path := p_Path p; p_MountPath := p_MountPath p;
     p_Permissions := permissions; p_ReadOnly := p_ReadOnly p;
     p_Type := type |}.

Definition Default_Group (g : Group) : Group :=
  {| Paths := map Default_Path (Paths g);
     USBSpecs := USBSpecs g;
     Count := if Nat.eqb (Count g) 0 then 1 else Count g |}.

Definition Default (d : DeviceSpec) : DeviceSpec :=
  {| dsName := dsName d; Groups := map Default_Group (Groups d) |}.

(** ** Path discovery: [GenericPlugin.discover] / [discoverPath] *)

(** The body of the first inner loop: glob the pattern, sort the matches,
    store them at the pattern's index [i] and keep track of the shortest
    length in the group. *)
Definition globPath (host : Host) (i : nat) (path : Path)
    (st : list (list string) * nat) : outcome (list (list string) * nat) :=
  let '(paths, length) := st in
  match Glob host (p_Path path) with
  | None => Err (ErrBadPattern (p_Path path))
  | Some matches =>
      let matches := sort.Strings matches in
      let paths := <[i := matches]> paths in
      let length :=
        if Nat.eqb length 0 || Nat.ltb (List.length matches) length
        then List.length matches else length in
      Ok (paths, length)
  end.

(** The first inner loop, over the patterns of the group, from
    [paths := make([][]string, len(group.Paths))] and [length = 0]. *)
Definition globPaths (host : Host) (group : Group)
  : outcome (list (list string) * nat) :=
  for_range (Paths group) (globPath host)
    (replicate (List.length (Paths group)) [], 0).

(** The body of the loop over the group's members that fills one device:
    [paths[k][i]] is read once (every use of it in the body reads the same
    element, and the write to the hash reads it unconditionally). *)
Definition addMember (paths : list (list string)) (i : nat) (k : nat) (path : Path)
    (st : sha1.Hash * device) : outcome (sha1.Hash * device) :=
  let '(h, d) := st in
  row ← index paths k;
  hostPath ← index row i;
  let mountPath :=
    if String.eqb (p_MountPath path) "" then hostPath else p_MountPath path in
  let d :=
    if String.eqb (p_Type path) DevicePathType then
      {| Device := Device d;
         deviceSpecs := deviceSpecs d ++
           [ {| v1beta1.ds_HostPath := hostPath;
                v1beta1.ds_ContainerPath := mountPath;
                v1beta1.ds_Permissions := p_Permissions path |} ];
         mounts := mounts d |}
    else if String.eqb (p_Type path) MountPathType then
      {| Device := Device d;
         deviceSpecs := deviceSpecs d;
         mounts := mounts d ++
           [ {| v1beta1.m_HostPath := hostPath;
                v1beta1.m_ContainerPath := mountPath;
                v1beta1.m_ReadOnly := p_ReadOnly path |} ] |}
    else d in
  Ok (sha1.Write h (bytes hostPath), d).

Definition addMembers (group : Group) (paths : list (list string)) (i : nat)
    (h : sha1.Hash) (d : device) : outcome (sha1.Hash * device) :=
  for_range (Paths group) (addMember paths i) (h, d).

Definition setID (d : device) (id : string) : device :=
  {| Device := {| v1beta1.ID := id; v1beta1.Health := dHealth d |};
     deviceSpecs := deviceSpecs d; mounts := mounts d |}.

(** The device built for match index [i] and repetition [j]. *)
Definition newDevice (group : Group) (paths : list (list string)) (i j : nat)
  : outcome device :=
  let h := sha1.New in
  let h := sha1.Write h (bytes (strconv.FormatUint (N.of_nat j))) in
  let d := {| Device := {| v1beta1.ID := ""; v1beta1.Health := v1beta1.Healthy |};
              deviceSpecs := []; mounts := [] |} in
  '(h, d) ← addMembers group paths i h d;
  Ok (setID d (fmt.Sprintf_x (sha1.Sum h))).

(** The body of the loop over the groups. *)
Definition discoverGroup (host : Host) (group : Group) (devices : list device)
  : outcome (list device) :=
  '(paths, length) ← globPaths host group;
  for_upto length
    (fun i devices =>
       for_upto (Count group)
         (fun j devices =>
            d ← newDevice group paths i j;
            Ok (devices ++ [d]))
         devices)
    devices.

Definition discover (host : Host) (spec : DeviceSpec) : outcome (list device) :=
  for_range (Groups spec) (fun _ group devices => discoverGroup host group devices) [].

(** ** USB discovery (usb.go) *)

Definition usbDevicesDir : string := "/sys/bus/usb/devices/".
Definition usbDevicesDirVendorIDFile : string := "idVendor".
Definition usbDevicesDirProductIDFile : string := "idProduct".
Definition usbDevicesDirBusFile : string := "busnum".
Definition usbDevicesDirBusDevFile : string := "devnum".
Definition usbDevBus : string := "/dev/bus/usb/%+04d/%+04d".

(** [usbDevice] represents a physical USB device; all four fields are
    [uint16] values. *)
Record usbDevice : Type := {
  Vendor : USBID;
  Product : USBID;
  Bus : N;
  BusDevice : N
}.

(** [BusPath] returns the path to the raw device. *)
Definition BusPath (dev : usbDevice) : string :=
  fmt.Sprintf usbDevBus [Bus dev; BusDevice dev].

(** [strconv.FormatUint(n, 16)]: the lowercase hexadecimal digits of [n],
    most significant first, ["0"] for zero. *)
Definition FormatUint_hex (n : N) : string :=
  HexadecimalString.NilEmpty.string_of_uint (N.to_hex_uint n).

(** The method [fmtInteger] of [fmt] for verb [x] on a value that is not
    negative: as [fmt.fmtInteger], with hexadecimal digits. *)
Definition fmtInteger_x (f : fmt.fmtFlags) (u : N) : string :=
  let digits := FormatUint_hex u in
  let prec :=
    match fmt.wid f with
    | Some w => if fmt.zero f then (if fmt.plus f then w - 1 else w) else 0
    | None => 0
    end in
  let padded := fmt.repeat_char "0" (prec - String.length digits) +:+ digits in
  let signed := if fmt.plus f then String "+" padded else padded in
  match fmt.wid f with
  | Some w =>
      let fill := fmt.repeat_char " " (w - String.length signed) in
      if fmt.minus f then signed +:+ fill else fill +:+ signed
  | None => signed
  end.

(** [USBID.String] returns a standardised hexadecimal representation of the
    id: the verb [x] with the zero flag and width 4. *)
Definition USBID_String (id : USBID) : string :=
  fmtInteger_x {| fmt.plus := false; fmt.minus := false;
                  fmt.zero := true; fmt.wid := Some 4 |} id.

(** [binary.LittleEndian.Uint16]: the bounds check on index 1 comes first. *)
Definition LittleEndian_Uint16 (b : list Byte.byte) : outcome N :=
  b1 ← index b 1;
  b0 ← index b 0;
  Ok (N.lor (Byte.to_N b0) (N.shiftl (Byte.to_N b1) 8)).

(** The two-character text made of two double quotes. *)
Definition emptyJSONString : string := String "034" (String "034" EmptyString).

(** [USBID.UnmarshalJSON]: the id after the call; [null] and the empty JSON
    string leave it as it is. *)
Definition USBID_UnmarshalJSON (id : USBID) (data : list Byte.byte) : outcome USBID :=
  if String.eqb (string_of_list_byte data) "null"
     || String.eqb (string_of_list_byte data) emptyJSONString
  then Ok id
  else LittleEndian_Uint16 data.

Module filepath.

Fixpoint trimSeparators (s : string) : string :=
  match s with
  | EmptyString => EmptyString
  | String c s' =>
      match trimSeparators s' with
      | EmptyString => if Ascii.eqb c "/" then EmptyString else String c EmptyString
      | t => String c t
      end
  end.

(** [filepath.Join] of a clean directory, possibly ending in a separator,
    and a base name (an entry name of [os.ReadDir], or an attribute file
    name). *)
Definition Join (dir name : string) : string :=
  trimSeparators dir +:+ "/" +:+ name.

End filepath.

Module strings.

(** [strings.ReplaceAll(s, "\n", "")]. *)
Fixpoint dropNewlines (s : string) : string :=
  match s with
  | EmptyString => EmptyString
  | String c s' =>
      if Ascii.eqb c "010" then dropNewlines s' else String c (dropNewlines s')
  end.

End strings.

(** [readFileToUint16]: [None] when the file cannot be read or does not
    parse as a 16-bit hexadecimal number. *)
Definition readFileToUint16 (host : Host) (path : string) : option N :=
  match ReadFile host path with
  | None => None
  | Some data => strconv.ParseUint16 (strings.dropNewlines data)
  end.

(** [queryUSBDeviceCharacteristicsByDirectory]: [None] is any of its
    errors. *)
Definition queryUSBDeviceCharacteristicsByDirectory (host : Host) (dir : DirEntry)
  : option usbDevice :=
  if negb (IsDir dir) then None
  else
    let fqPath := filepath.Join usbDevicesDir (Name dir) in
    vnd ← readFileToUint16 host (filepath.Join fqPath usbDevicesDirVendorIDFile);
    prd ← readFileToUint16 host (filepath.Join fqPath usbDevicesDirProductIDFile);
    bus ← readFileToUint16 host (filepath.Join fqPath usbDevicesDirBusFile);
    busLoc ← readFileToUint16 host (filepath.Join fqPath usbDevicesDirBusDevFile);
    Some {| Vendor := vnd; Product := prd; Bus := bus; BusDevice := busLoc |}.

(** [enumerateUSBDevices]: the entries that could be queried. The source
    queries the entries concurrently and collects the results from a channel
    in the order of arrival; the model collects them in directory order. *)
Definition enumerateUSBDevices (host : Host) (dir : string)
  : outcome (list usbDevice) :=
  match ReadDir host dir with
  | None => Err (ErrReadDir dir)
  | Some allDevs =>
      Ok (omap (queryUSBDeviceCharacteristicsByDirectory host) allDevs)
  end.

(** [searchUSBDevices] returns the devices that match the given vendor and
    product. *)
Definition searchUSBDevices (devices : list usbDevice) (vendor product : USBID)
  : list usbDevice :=
  filter (fun dev => Vendor dev = vendor ∧ Product dev = product) devices.

(** The device of a USB group for repetition [j]. *)
Definition newUSBDevice (paths : list string) (j : nat) : device :=
  let h := sha1.New in
  let h := sha1.Write h (bytes (strconv.FormatUint (N.of_nat j))) in
  let d := {| Device := {| v1beta1.ID := ""; v1beta1.Health := v1beta1.Healthy |};
              deviceSpecs := []; mounts := [] |} in
  let '(h, d) :=
    fold_left
      (fun '(h, d) path =>
         (sha1.Write h (bytes path),
          {| Device := Device d;
             deviceSpecs := deviceSpecs d ++
               [ {| v1beta1.ds_HostPath := path;
                    v1beta1.ds_ContainerPath := path;
                    v1beta1.ds_Permissions := "rw" |} ];
             mounts := mounts d |}))
      paths (h, d) in
  setID d (fmt.Sprintf_x (sha1.Sum h)).

Definition discoverUSBGroup (host : Host) (group : Group) (devices : list device)
  : outcome (list device) :=
  usbDevs ← enumerateUSBDevices host usbDevicesDir;
  let paths :=
    fold_left
      (fun paths dev =>
         let matches := searchUSBDevices usbDevs (us_Vendor dev) (us_Product dev) in
         paths ++ map BusPath matches)
      (USBSpecs group) [] in
  if Nat.ltb 0 (List.length paths) then
    for_upto (Count group)
      (fun j devices => Ok (devices ++ [newUSBDevice paths j]))
      devices
  else Ok devices.

Definition discoverUSB (host : Host) (spec : DeviceSpec) : outcome (list device) :=
  for_range (Groups spec)
    (fun _ group devices => discoverUSBGroup host group devices) [].

(** ** The inventory: [refreshDevices] *)

Definition setDevices (gp : GenericPlugin) (m : gmap string device) (gauge : nat)
  : GenericPlugin :=
  {| ds := ds gp; devices := m; deviceGauge := gauge;
     allocationsCounter := allocationsCounter gp |}.

(** The loop that adds the new devices to the fresh map and checks whether
    they were in the old one. *)
Definition addDevices (old : gmap string device) (discovered : list device)
    (new : gmap string device) (equal : bool) : gmap string device * bool :=
  fold_left
    (fun '(new, equal) d =>
       (<[dID d := d]> new,
        match old !! dID d with
        | Some _ => equal
        | None => false
        end))
    discovered (new, equal).

(** The loop that checks whether devices were removed: [true] when some key
    of [old] is missing from [new]. *)
Definition removedAny (old new : gmap string device) : bool :=
  existsb (fun k => match new !! k with Some _ => false | None => true end)
          (elements (dom old)).

(** [refreshDevices] updates the devices available to the plugin and returns
    a boolean indicating if everything is OK, i.e. if the devices are the
    same ones as before. *)
Definition refreshDevices (host : Host) (gp : GenericPlugin)
  : GenericPlugin * outcome bool :=
  match discover host (ds gp) with
  | Err e => (gp, Err (ErrDiscover e))
  | Panic p => (gp, Panic p)
  | Ok discovered =>
      let old := devices gp in
      let equal := false in
      let '(new, equal) := addDevices old discovered ∅ equal in
      let gp := setDevices gp new (List.length discovered) in
      if negb equal then (gp, Ok false)
      else if removedAny old new then (gp, Ok false)
      else (gp, Ok true)
  end.

(** [GetDeviceState] always returns healthy. *)
Definition GetDeviceState (gp : GenericPlugin) (id : string) : string :=
  v1beta1.Healthy.

(** ** [Allocate] *)

(** The inner loop: add all requested devices to the response. *)
Definition allocateContainer (devs : gmap string device)
    (r : v1beta1.ContainerAllocateRequest)
  : outcome v1beta1.ContainerAllocateResponse :=
  for_range (v1beta1.DevicesIDs r)
    (fun _ id resp =>
       match devs !! id with
       | None => Err (ErrDoesNotExist id)
       | Some d =>
           if negb (String.eqb (dHealth d) v1beta1.Healthy)
           then Err (ErrNotHealthy id)
           else Ok {| v1beta1.Devices := v1beta1.Devices resp ++ deviceSpecs d;
                      v1beta1.Mounts := v1beta1.Mounts resp ++ mounts d |}
       end)
    {| v1beta1.Devices := []; v1beta1.Mounts := [] |}.

(** [Allocate] assigns generic devices to a Pod. *)
Definition Allocate (gp : GenericPlugin) (req : v1beta1.AllocateRequest)
  : GenericPlugin * outcome v1beta1.AllocateResponse :=
  let res :=
    for_range (v1beta1.ContainerRequests req)
      (fun _ r res =>
         resp ← allocateContainer (devices gp) r;
         Ok {| v1beta1.ContainerResponses :=
                 v1beta1.ContainerResponses res ++ [resp] |})
      {| v1beta1.ContainerResponses := [] |} in
  match res with
  | Ok res =>
      ({| ds := ds gp; devices := devices gp; deviceGauge := deviceGauge gp;
          allocationsCounter :=
            allocationsCounter gp + List.length (v1beta1.ContainerResponses res) |},
       Ok res)
  | Err e => (gp, Err e)
  | Panic p => (gp, Panic p)
  end.

(** ** [ListAndWatch] *)

Record ListAndWatchResponse : Type := {
  lw_Devices : list v1beta1.Device
}.

(** The response that lists the devices of the map. Go ranges over the map
    in no specified order; the devices are listed here in the order of
    [map_to_list]. *)
Definition listDevices (gp : GenericPlugin) : ListAndWatchResponse :=
  {| lw_Devices :=
       map (fun kv : string * device =>
              {| v1beta1.ID := dID kv.2; v1beta1.Health := dHealth kv.2 |})
           (map_to_list (devices gp)) |}.

(** Where a call of [ListAndWatch] stands once the ticks observed so far are
    used up: waiting for the next tick, or returned with the error of
    [refreshDevices] or of [stream.Send], or panicked. *)
Inductive watchStatus : Type :=
| Waiting
| Returned (e : error)
| ReturnedSendError
| Panicked (p : panic).

(** The loop of [ListAndWatch]. Each element of [ticks] is the host as it is
    when one [deviceCheckInterval] has elapsed; [sendFails n] tells whether
    the call of [stream.Send] that follows [n] delivered responses returns an
    error. The result is the plugin, the responses delivered, and where the
    call stands. *)
Fixpoint watch (sendFails : nat -> bool) (ticks : list Host) (ok : bool)
    (gp : GenericPlugin) (sent : list ListAndWatchResponse)
  : GenericPlugin * list ListAndWatchResponse * watchStatus :=
  let sending :=
    if negb ok then
      if sendFails (List.length sent) then None
      else Some (sent ++ [listDevices gp])
    else Some sent in
  match sending with
  | None => (gp, sent, ReturnedSendError)
  | Some sent =>
      match ticks with
      | [] => (gp, sent, Waiting)
      | host :: ticks' =>
          match refreshDevices host gp with
          | (gp, Ok ok) => watch sendFails ticks' ok gp sent
          | (gp, Err e) => (gp, sent, Returned e)
          | (gp, Panic p) => (gp, sent, Panicked p)
          end
      end
  end.

(** [ListAndWatch] lists all devices and then refreshes every
    [deviceCheckInterval]; [host] is the host at the time of the call. *)
Definition ListAndWatch (sendFails : nat -> bool) (host : Host) (ticks : list Host)
    (gp : GenericPlugin)
  : GenericPlugin * list ListAndWatchResponse * watchStatus :=
  match refreshDevices host gp with
  | (gp, Ok _) => watch sendFails ticks false gp []
  | (gp, Err e) => (gp, [], Returned e)
  | (gp, Panic p) => (gp, [], Panicked p)
  end.

(** * The first version of the plugin: deviceplugin/generic.go *)

Module legacy.

(** [DeviceSpec] defines a device type and the paths at which it can be
    found. *)
Record DeviceSpec : Type := {
  Resource : string;
  Paths : list string;
  Count : nat
}.

Record GenericPlugin : Type := {
  ds : DeviceSpec;
  devices : gmap string v1beta1.Device;
  deviceGauge : nat;
  allocationsCounter : nat
}.

Definition NewGenericPlugin (spec : DeviceSpec) : GenericPlugin :=
  {| ds := spec; devices := ∅; deviceGauge := 0; allocationsCounter := 0 |}.

(** The id [fmt.Sprintf("%s-%d", m, i)]: the verb [s] prints the string as
    it is. *)
Definition deviceID (m : string) (i : nat) : string :=
  m +:+ fmt.Sprintf "-%d" [N.of_nat i].

Definition discover (host : Host) (spec : DeviceSpec)
  : outcome (list v1beta1.Device) :=
  for_range (Paths spec)
    (fun _ path devices =>
       match Glob host path with
       | None => Err (ErrBadPattern path)
       | Some matches =>
           for_range matches
             (fun _ m devices =>
                for_upto (Count spec)
                  (fun i devices =>
                     Ok (devices ++ [ {| v1beta1.ID := deviceID m i;
                                         v1beta1.Health := v1beta1.Healthy |} ]))
                  devices)
             devices
       end)
    [].

Definition addDevices (old : gmap string v1beta1.Device)
    (discovered : list v1beta1.Device)
    (new : gmap string v1beta1.Device) (equal : bool)
  : gmap string v1beta1.Device * bool :=
  fold_left
    (fun '(new, equal) d =>
       (<[v1beta1.ID d := d]> new,
        match old !! v1beta1.ID d with
        | Some _ => equal
        | None => false
        end))
    discovered (new, equal).

Definition removedAny (old new : gmap string v1beta1.Device) : bool :=
  existsb (fun k => match new !! k with Some _ => false | None => true end)
          (elements (dom old)).

Definition refreshDevices (host : Host) (gp : GenericPlugin)
  : GenericPlugin * outcome bool :=
  match discover host (ds gp) with
  | Err e => (gp, Err (ErrDiscover e))
  | Panic p => (gp, Panic p)
  | Ok discovered =>
      let old := devices gp in
      let equal := false in
      let '(new, equal) := addDevices old discovered ∅ equal in
      let gp := {| ds := ds gp; devices := new;
                   deviceGauge := List.length discovered;
                   allocationsCounter := allocationsCounter gp |} in
      if negb equal then (gp, Ok false)
      else if removedAny old new then (gp, Ok false)
      else (gp, Ok true)
  end.

(** [strings.LastIndex(s, sep)] for a separator of one byte: the index of
    its last occurrence in [s], -1 when there is none. *)
Fixpoint LastIndex (s : string) (sep : ascii) : Z :=
  match s with
  | EmptyString => (-1)%Z
  | String c s' =>
      let k := LastIndex s' sep in
      if (0 <=? k)%Z then (k + 1)%Z
      else if Ascii.eqb c sep then 0%Z else (-1)%Z
  end.

(** How [Allocate] ends: with a response, with an error, or with the run-time
    panic of a slice expression whose upper bound is out of range. *)
Inductive result (A : Type) : Type :=
| Done (a : A)
| Failed (e : error)
| SliceBoundsOutOfRange (high : Z).
Arguments Done {A} a.
Arguments Failed {A} e.
Arguments SliceBoundsOutOfRange {A} high.

(** The slice expression [s[0:high]]. *)
Definition slice_to (s : string) (high : Z) : result string :=
  if (high <? 0)%Z || (Z.of_nat (String.length s) <? high)%Z
  then SliceBoundsOutOfRange high
  else Done (String.substring 0 (Z.to_nat high) s).

(** The loop over the requested ids of one container. *)
Fixpoint allocateIDs (devs : gmap string v1beta1.Device) (ids : list string)
    (resp : v1beta1.ContainerAllocateResponse)
  : result v1beta1.ContainerAllocateResponse :=
  match ids with
  | [] => Done resp
  | id :: ids' =>
      match devs !! id with
      | None => Failed (ErrDoesNotExist id)
      | Some dev =>
          if negb (String.eqb (v1beta1.Health dev) v1beta1.Healthy)
          then Failed (ErrNotHealthy id)
          else
            match slice_to id (LastIndex id "-") with
            | Done hostPath =>
                allocateIDs devs ids'
                  {| v1beta1.Devices :=
                       v1beta1.Devices resp ++
                       [ {| v1beta1.ds_HostPath := hostPath;
                            v1beta1.ds_ContainerPath := hostPath;
                            v1beta1.ds_Permissions := "mrw" |} ];
                     v1beta1.Mounts := v1beta1.Mounts resp |}
            | Failed e => Failed e
            | SliceBoundsOutOfRange high => SliceBoundsOutOfRange high
            end
      end
  end.

(** The loop over the container requests. *)
Fixpoint allocateContainers (devs : gmap string v1beta1.Device)
    (rs : list v1beta1.ContainerAllocateRequest) (res : v1beta1.AllocateResponse)
  : result v1beta1.AllocateResponse :=
  match rs with
  | [] => Done res
  | r :: rs' =>
      match allocateIDs devs (v1beta1.DevicesIDs r)
              {| v1beta1.Devices := []; v1beta1.Mounts := [] |} with
      | Done resp =>
          allocateContainers devs rs'
            {| v1beta1.ContainerResponses :=
                 v1beta1.ContainerResponses res ++ [resp] |}
      | Failed e => Failed e
      | SliceBoundsOutOfRange high => SliceBoundsOutOfRange high
      end
  end.

(** [Allocate] assigns generic devices to a Pod. *)
Definition Allocate (gp : GenericPlugin) (req : v1beta1.AllocateRequest)
  : GenericPlugin * result v1beta1.AllocateResponse :=
  match allocateContainers (devices gp) (v1beta1.ContainerRequests req)
          {| v1beta1.ContainerResponses := [] |} with
  | Done res =>
      ({| ds := ds gp; devices := devices gp; deviceGauge := deviceGauge gp;
          allocationsCounter :=
            allocationsCounter gp + List.length (v1beta1.ContainerResponses res) |},
       Done res)
  | Failed e => (gp, Failed e)
  | SliceBoundsOutOfRange high => (gp, SliceBoundsOutOfRange high)
  end.

End legacy.

(** * Properties *)

(** ** The library models on known values *)

Example sha1_abc :
  fmt.Sprintf_x (sha1.digest (bytes "abc")) = "a9993e364706816aba3e25717850c26c9cd0d89d".
Proof. vm_compute. reflexivity. Qed.

Example sha1_empty :
  fmt.Sprintf_x (sha1.digest []) = "da39a3ee5e6b4b0d3255bfef95601890afd80709".
Proof. vm_compute. reflexivity. Qed.

Example sha1_two_blocks :
  fmt.Sprintf_x
    (sha1.digest (bytes "abcdbcdecdefdefgefghfghighijhijkijkljklmklmnlmnomnopnopq"))
  = "84983e441c3bd26ebaae4aa1f95129e5e54670f1".
Proof. vm_compute. reflexivity. Qed.

Example FormatUint_values :
  map strconv.FormatUint [0%N; 7%N; 10%N; 255%N] = ["0"; "7"; "10"; "255"].
Proof. reflexivity. Qed.

Example Sprintf_width_zero :
  fmt.Sprintf "/dev/bus/usb/%03d/%03d" [3%N; 22%N] = "/dev/bus/usb/003/022".
Proof. reflexivity. Qed.

Example ParseUint16_values :
  map strconv.ParseUint16 ["1050"; "0407"; "fFfF"; "10000"; ""; "12g"] =
  [Some 0x1050%N; Some 0x0407%N; Some 65535%N; None; None; None].
Proof. reflexivity. Qed.

Example Strings_sorts :
  sort.Strings ["/dev/ttyUSB3"; "/dev/ttyUSB10"; "/dev/ttyUSB1"; "/dev/ttyUSB0"] =
  ["/dev/ttyUSB0"; "/dev/ttyUSB1"; "/dev/ttyUSB10"; "/dev/ttyUSB3"].
Proof. reflexivity. Qed.

(** ** Loops *)

Section loops.
Context {A St : Type}.
Implicit Types (l : list A) (body : nat -> A -> St -> outcome St).

(** Partial correctness: an invariant of the body holds when the loop
    returns normally. *)
Lemma for_range_from_invariant (P : St -> Prop) l body :
  (forall k a s s', a ∈ l -> P s -> body k a s = Ok s' -> P s') ->
  forall k s s', P s -> for_range_from k l body s = Ok s' -> P s'.
Proof.
  induction l as [|a l IH]; intros Hbody k s s' Hs Hrun; simpl in Hrun.
  - by simplify_eq.
  - destruct (body k a s) as [s1| |] eqn:Hb; try discriminate.
    eapply IH; [| |exact Hrun].
    + intros. eapply Hbody; eauto. by right.
    + eapply Hbody; eauto. by left.
Qed.

(** An error of the loop is the error of one run of its body. *)
Lemma for_range_from_Err l body e :
  forall k s, for_range_from k l body s = Err e ->
              exists k' a s', a ∈ l /\ body k' a s' = Err e.
Proof.
  induction l as [|a l IH]; intros k s Hrun; simpl in Hrun; [discriminate|].
  destruct (body k a s) as [s1|e1|] eqn:Hb; simpl in Hrun.
  - destruct (IH _ _ Hrun) as (k' & a' & s' & Hin & Hb').
    exists k', a', s'. split; [by right|done].
  - inversion Hrun; subst. exists k, a, s. split; [by left|done].
  - discriminate.
Qed.

(** A loop whose body never panics does not panic. *)
Lemma for_range_from_no_panic l body p :
  (forall k a s, a ∈ l -> body k a s <> Panic p) ->
  forall k s, for_range_from k l body s <> Panic p.
Proof.
  induction l as [|a l IH]; intros Hbody k s; simpl; [discriminate|].
  destruct (body k a s) as [s1|e1|p1] eqn:Hb; simpl.
  - apply IH. intros. apply Hbody. by right.
  - discriminate.
  - intros Heq. inversion Heq; subst. eapply Hbody; [|exact Hb]. by left.
Qed.

(** When the loop returns normally, so did its body on every element. *)
Lemma for_range_from_Ok_each l body :
  forall k s s', for_range_from k l body s = Ok s' ->
  forall a, a ∈ l -> exists k' s1 s2, body k' a s1 = Ok s2.
Proof.
  induction l as [|a l IH]; intros k s s' Hrun x Hx; [by inversion Hx|].
  simpl in Hrun.
  destruct (body k a s) as [s1| |] eqn:Hb; try discriminate.
  apply elem_of_cons in Hx as [->|Hx]; [by eauto|].
  eapply IH; eauto.
Qed.

End loops.

(** A loop that appends to a list what each element contributes. *)
Lemma for_range_from_collect {A B : Type} (l : list A) (f : A -> list B)
    (body : nat -> A -> list B -> outcome (list B)) :
  (forall k a s, a ∈ l -> body k a s = Ok (s ++ f a)) ->
  forall k s, for_range_from k l body s = Ok (s ++ flat_map f l).
Proof.
  induction l as [|a l IH]; intros Hbody k s; simpl.
  - by rewrite app_nil_r.
  - rewrite Hbody; [|by left]. simpl.
    rewrite IH; [by rewrite app_assoc|].
    intros. apply Hbody. by right.
Qed.

(** ** Allocation *)

(** What a container is to receive: the device specs and the mounts of the
    requested ids, in request order, one run per occurrence of an id. *)
Definition allocated (devs : gmap string device)
    (r : v1beta1.ContainerAllocateRequest) : v1beta1.ContainerAllocateResponse :=
  {| v1beta1.Devices :=
       flat_map (fun id => from_option deviceSpecs [] (devs !! id))
                (v1beta1.DevicesIDs r);
     v1beta1.Mounts :=
       flat_map (fun id => from_option mounts [] (devs !! id))
                (v1beta1.DevicesIDs r) |}.

Definition present_healthy (devs : gmap string device) (id : string) : Prop :=
  exists d, devs !! id = Some d /\ dHealth d = v1beta1.Healthy.

Definition allocStep (devs : gmap string device) (id : string)
    (resp : v1beta1.ContainerAllocateResponse)
  : outcome v1beta1.ContainerAllocateResponse :=
  match devs !! id with
  | None => Err (ErrDoesNotExist id)
  | Some d =>
      if negb (String.eqb (dHealth d) v1beta1.Healthy)
      then Err (ErrNotHealthy id)
      else Ok {| v1beta1.Devices := v1beta1.Devices resp ++ deviceSpecs d;
                 v1beta1.Mounts := v1beta1.Mounts resp ++ mounts d |}
  end.

Lemma allocStep_no_panic devs id resp p : allocStep devs id resp <> Panic p.
Proof.
  unfold allocStep. destruct (devs !! id); [|discriminate].
  destruct (negb _); discriminate.
Qed.

Lemma allocStep_Ok devs id d resp :
  devs !! id = Some d -> dHealth d = v1beta1.Healthy ->
  allocStep devs id resp =
  Ok {| v1beta1.Devices := v1beta1.Devices resp ++ deviceSpecs d;
        v1beta1.Mounts := v1beta1.Mounts resp ++ mounts d |}.
Proof. intros Hd Hh. unfold allocStep. by rewrite Hd, Hh. Qed.

Lemma allocateContainer_no_panic devs r p : allocateContainer devs r <> Panic p.
Proof.
  apply for_range_from_no_panic. intros k id resp _. apply allocStep_no_panic.
Qed.

Lemma allocSteps_Ok devs ids :
  Forall (present_healthy devs) ids ->
  forall k resp,
    for_range_from k ids (fun _ => allocStep devs) resp =
    Ok {| v1beta1.Devices :=
            v1beta1.Devices resp ++
            flat_map (fun id => from_option deviceSpecs [] (devs !! id)) ids;
          v1beta1.Mounts :=
            v1beta1.Mounts resp ++
            flat_map (fun id => from_option mounts [] (devs !! id)) ids |}.
Proof.
  induction 1 as [|id ids (d & Hd & Hh) _ IH]; intros k resp;
    cbn [for_range_from flat_map].
  - rewrite !app_nil_r. by destruct resp.
  - rewrite (allocStep_Ok _ _ _ _ Hd Hh). cbn.
    rewrite IH. cbn. by rewrite Hd, <- !app_assoc.
Qed.

Lemma allocateContainer_Ok devs r :
  Forall (present_healthy devs) (v1beta1.DevicesIDs r) ->
  allocateContainer devs r = Ok (allocated devs r).
Proof.
  intros H. unfold allocateContainer, for_range.
  exact (allocSteps_Ok _ _ H 0 _).
Qed.

(** A successful container allocation found every requested id. *)
Lemma allocateContainer_Ok_present devs r resp id :
  allocateContainer devs r = Ok resp ->
  id ∈ v1beta1.DevicesIDs r -> is_Some (devs !! id).
Proof.
  intros Hrun Hin.
  destruct (for_range_from_Ok_each _ _ _ _ _ Hrun _ Hin) as (k & s1 & s2 & Hb).
  simpl in Hb. destruct (devs !! id); [eauto|discriminate].
Qed.

(** The "not healthy" error is only returned for a stored record whose
    health is not [Healthy]. *)
Lemma allocateContainer_ErrNotHealthy devs r id :
  allocateContainer devs r = Err (ErrNotHealthy id) ->
  exists d, devs !! id = Some d /\ dHealth d <> v1beta1.Healthy.
Proof.
  intros Hrun.
  destruct (for_range_from_Err _ _ _ _ _ Hrun) as (k & id' & s & _ & Hb).
  simpl in Hb. destruct (devs !! id') as [d|] eqn:Hd; [|discriminate].
  destruct (String.eqb (dHealth d) v1beta1.Healthy) eqn:Hh; [discriminate|].
  simpl in Hb. injection Hb as ->. exists d. split; [done|].
  by apply String.eqb_neq.
Qed.

Definition allocContainers (gp : GenericPlugin) (req : v1beta1.AllocateRequest)
  : outcome v1beta1.AllocateResponse :=
  for_range (v1beta1.ContainerRequests req)
    (fun _ r res =>
       resp ← allocateContainer (devices gp) r;
       Ok {| v1beta1.ContainerResponses :=
               v1beta1.ContainerResponses res ++ [resp] |})
    {| v1beta1.ContainerResponses := [] |}.

Lemma Allocate_unfold gp req :
  Allocate gp req =
  match allocContainers gp req with
  | Ok res =>
      ({| ds := ds gp; devices := devices gp; deviceGauge := deviceGauge gp;
          allocationsCounter :=
            allocationsCounter gp + List.length (v1beta1.ContainerResponses res) |},
       Ok res)
  | Err e => (gp, Err e)
  | Panic p => (gp, Panic p)
  end.
Proof. reflexivity. Qed.

Lemma allocContainers_no_panic gp req p : allocContainers gp req <> Panic p.
Proof.
  apply for_range_from_no_panic. intros k r res _.
  destruct (allocateContainer (devices gp) r) eqn:Hc; simpl; try discriminate.
  intros Heq. injection Heq as ->. by apply allocateContainer_no_panic in Hc.
Qed.

Lemma allocContainers_Ok gp rs :
  Forall (fun r => Forall (present_healthy (devices gp)) (v1beta1.DevicesIDs r)) rs ->
  forall k res,
    for_range_from k rs
      (fun _ r res =>
         resp ← allocateContainer (devices gp) r;
         Ok {| v1beta1.ContainerResponses :=
                 v1beta1.ContainerResponses res ++ [resp] |}) res =
    Ok {| v1beta1.ContainerResponses :=
            v1beta1.ContainerResponses res ++ map (allocated (devices gp)) rs |}.
Proof.
  induction 1 as [|r rs Hr _ IH]; intros k res; simpl.
  - rewrite app_nil_r. by destruct res.
  - rewrite (allocateContainer_Ok _ _ Hr). simpl.
    rewrite IH. simpl. by rewrite <- app_assoc.
Qed.

(** C7. [Allocate] is all-or-nothing: when some requested id of some
    container request is absent from the device map the call returns an
    error, carries no response and leaves the plugin as it was; when every
    requested id is present and Healthy the response lists, per container and
    in request order, exactly the device specs and mounts of the requested
    units, a repeated id contributing once per occurrence. *)
Theorem Allocate_all_or_nothing (gp : GenericPlugin) (req : v1beta1.AllocateRequest) :
  ((exists r id, r ∈ v1beta1.ContainerRequests req /\
                 id ∈ v1beta1.DevicesIDs r /\ devices gp !! id = None) ->
   exists e, Allocate gp req = (gp, Err e))
  /\
  ((forall r id, r ∈ v1beta1.ContainerRequests req ->
                 id ∈ v1beta1.DevicesIDs r -> present_healthy (devices gp) id) ->
   snd (Allocate gp req) =
   Ok {| v1beta1.ContainerResponses :=
           map (allocated (devices gp)) (v1beta1.ContainerRequests req) |}).
Proof.
  split.
  - intros (r & id & Hr & Hid & Hnone).
    rewrite Allocate_unfold.
    destruct (allocContainers gp req) as [res|e|p] eqn:Hrun.
    + exfalso.
      destruct (for_range_from_Ok_each _ _ _ _ _ Hrun _ Hr) as (k & s1 & s2 & Hb).
      simpl in Hb.
      destruct (allocateContainer (devices gp) r) as [resp| |] eqn:Hc;
        try discriminate.
      destruct (allocateContainer_Ok_present _ _ _ _ Hc Hid) as [d Hd].
      congruence.
    + by exists e.
    + by apply allocContainers_no_panic in Hrun.
  - intros Hall. rewrite Allocate_unfold.
    assert (Hrun : allocContainers gp req =
                   Ok {| v1beta1.ContainerResponses :=
                           map (allocated (devices gp)) (v1beta1.ContainerRequests req) |}).
    { unfold allocContainers, for_range. rewrite allocContainers_Ok; [done|].
      apply Forall_forall. intros r Hr. apply Forall_forall. intros id Hid.
      by apply (Hall r). }
    by rewrite Hrun.
Qed.

(** ** Path discovery *)

(** The container path of a member: the configured mount path, the host path
    when none is configured. *)
Definition containerPath (p : Path) (hostPath : string) : string :=
  if String.eqb (p_MountPath p) "" then hostPath else p_MountPath p.

Definition memberSpec (p : Path) (hostPath : string) : list v1beta1.DeviceSpec :=
  if String.eqb (p_Type p) DevicePathType then
    [ {| v1beta1.ds_HostPath := hostPath;
         v1beta1.ds_ContainerPath := containerPath p hostPath;
         v1beta1.ds_Permissions := p_Permissions p |} ]
  else [].

Definition memberMount (p : Path) (hostPath : string) : list v1beta1.Mount :=
  if String.eqb (p_Type p) DevicePathType then []
  else if String.eqb (p_Type p) MountPathType then
    [ {| v1beta1.m_HostPath := hostPath;
         v1beta1.m_ContainerPath := containerPath p hostPath;
         v1beta1.m_ReadOnly := p_ReadOnly p |} ]
  else [].

(** The id of the unit for repetition [j] over the given host paths: the
    hexadecimal SHA-1 digest of the decimal digits of [j] followed by the
    host paths. *)
Definition unitID (j : nat) (hostPaths : list string) : string :=
  fmt.Sprintf_x
    (sha1.digest (bytes (strconv.FormatUint (N.of_nat j)) ++
                  concat (map bytes hostPaths))).

(** The unit assembled from one host path per member. *)
Definition unitOf (ps : list Path) (hostPaths : list string) (j : nat) : device :=
  {| Device := {| v1beta1.ID := unitID j hostPaths;
                  v1beta1.Health := v1beta1.Healthy |};
     deviceSpecs := concat (zip_with memberSpec ps hostPaths);
     mounts := concat (zip_with memberMount ps hostPaths) |}.

(** The i-th element of every row, when every row has one. *)
Definition column (rows : list (list string)) (i : nat) : option (list string) :=
  mapM (fun row : list string => row !! i) rows.

(** How the loop keeps track of the shortest length. *)
Definition trackLength (length m : nat) : nat :=
  if Nat.eqb length 0 || Nat.ltb m length then m else length.

(** The minimum of a list of numbers, 0 for the empty list. *)
Definition min_list (l : list nat) : nat :=
  match l with
  | [] => 0
  | x :: r => fold_left Nat.min r x
  end.

Definition globAll (host : Host) (ps : list Path) : option (list (list string)) :=
  mapM (fun p => Glob host (p_Path p)) ps.

Lemma globPaths_from host ps :
  forall k acc n,
    List.length acc = k ->
    match globAll host ps with
    | Some mss =>
        for_range_from k ps (globPath host)
          (acc ++ replicate (List.length ps) [], n) =
        Ok (acc ++ map sort.Strings mss,
            fold_left trackLength (map (@List.length string) (map sort.Strings mss)) n)
    | None =>
        exists e, for_range_from k ps (globPath host)
                    (acc ++ replicate (List.length ps) [], n) = Err e
    end.
Proof.
  unfold globAll.
  induction ps as [|p ps IH]; intros k acc n Hk; cbn.
  - by rewrite app_nil_r.
  - destruct (Glob host (p_Path p)) as [ms|] eqn:Hg; cbn; [|by eauto].
    rewrite insert_app_r_alt by lia.
    replace (k - List.length acc) with 0 by lia. cbn.
    specialize (IH (S k) (acc ++ [sort.Strings ms])
                   (trackLength n (List.length (sort.Strings ms)))).
    rewrite <- app_assoc in IH. cbn in IH.
    destruct (mapM _ ps) as [mss|]; cbn.
    + etrans; [apply IH; rewrite length_app; cbn; lia|].
      by rewrite <- app_assoc.
    + apply IH. rewrite length_app; cbn; lia.
Qed.

Lemma globPaths_Some host group mss :
  globAll host (Paths group) = Some mss ->
  globPaths host group =
  Ok (map sort.Strings mss,
      fold_left trackLength (map (@List.length string) (map sort.Strings mss)) 0).
Proof.
  intros H. pose proof (globPaths_from host (Paths group) 0 [] 0 eq_refl) as Hg.
  by rewrite H in Hg.
Qed.

Lemma globPaths_Ok_inv host group paths n :
  globPaths host group = Ok (paths, n) ->
  exists mss,
    globAll host (Paths group) = Some mss /\ paths = map sort.Strings mss /\
    n = fold_left trackLength (map (@List.length string) paths) 0.
Proof.
  intros Hrun.
  pose proof (globPaths_from host (Paths group) 0 [] 0 eq_refl) as Hg.
  destruct (globAll host (Paths group)) as [mss|].
  - exists mss. unfold globPaths, for_range in Hrun. cbn in Hg.
    rewrite Hg in Hrun. by simplify_eq.
  - destruct Hg as [e He]. unfold globPaths, for_range in Hrun. cbn in He.
    congruence.
Qed.

(** What the member loop does to the hash and the device, given one host
    path per member. *)
Definition withMembers (ps : list Path) (hs : list string)
    (st : sha1.Hash * device) : sha1.Hash * device :=
  (fst st ++ concat (map bytes hs),
   {| Device := Device (snd st);
      deviceSpecs := deviceSpecs (snd st) ++ concat (zip_with memberSpec ps hs);
      mounts := mounts (snd st) ++ concat (zip_with memberMount ps hs) |}).

Lemma addMember_Ok paths i k p row hostPath h d :
  paths !! k = Some row -> row !! i = Some hostPath ->
  addMember paths i k p (h, d) = Ok (withMembers [p] [hostPath] (h, d)).
Proof.
  intros Hrow Hi. unfold addMember, index. rewrite Hrow. cbn. rewrite Hi. cbn.
  unfold withMembers, memberSpec, memberMount, containerPath, sha1.Write. cbn.
  destruct (String.eqb (p_Type p) DevicePathType);
    [|destruct (String.eqb (p_Type p) MountPathType)];
    rewrite ?app_nil_r; by destruct d.
Qed.

Lemma addMember_Panic paths i k p row st :
  paths !! k = Some row -> row !! i = None ->
  exists q, addMember paths i k p st = Panic q.
Proof.
  intros Hrow Hi. destruct st as [h d]. unfold addMember, index.
  rewrite Hrow. cbn. rewrite Hi. cbn. eauto.
Qed.

Lemma withMembers_cons p ps hp hs st :
  withMembers ps hs (withMembers [p] [hp] st) = withMembers (p :: ps) (hp :: hs) st.
Proof.
  unfold withMembers. cbn. rewrite !app_nil_r. by rewrite <- !app_assoc.
Qed.

Lemma column_cons row rows i :
  column (row :: rows) i =
  match row !! i with
  | Some hp =>
      match column rows i with
      | Some hs => Some (hp :: hs)
      | None => None
      end
  | None => None
  end.
Proof.
  unfold column. cbn. destruct (row !! i); cbn; [|done].
  by destruct (mapM _ rows).
Qed.

Lemma addMembers_from paths i ps :
  forall k rows st,
    List.length ps = List.length rows ->
    (forall n, rows !! n = paths !! (k + n)) ->
    match column rows i with
    | Some hs => for_range_from k ps (addMember paths i) st = Ok (withMembers ps hs st)
    | None => exists q, for_range_from k ps (addMember paths i) st = Panic q
    end.
Proof.
  induction ps as [|p ps IH]; intros k [|row rows] [h d] Hlen Hrows;
    try discriminate.
  - cbn. unfold withMembers. cbn. rewrite !app_nil_r. by destruct d.
  - assert (Hk : paths !! k = Some row).
    { pose proof (Hrows 0) as H0. rewrite Nat.add_0_r in H0. by rewrite <- H0. }
    rewrite column_cons. cbn [for_range_from].
    destruct (row !! i) as [hp|] eqn:Hi.
    + rewrite (addMember_Ok _ _ _ _ _ _ _ _ Hk Hi).
      specialize (IH (S k) rows (withMembers [p] [hp] (h, d))).
      assert (Hlen' : List.length ps = List.length rows) by (by simplify_eq/=).
      assert (Hrows' : forall n, rows !! n = paths !! (S k + n)).
      { intros n. pose proof (Hrows (S n)) as Hn.
        by replace (k + S n) with (S k + n) in Hn by lia. }
      specialize (IH Hlen' Hrows').
      destruct (column rows i) as [hs|].
      * etrans; [exact IH|]. by rewrite withMembers_cons.
      * exact IH.
    + destruct (addMember_Panic _ _ _ p _ (h, d) Hk Hi) as [q Hq].
      exists q. by rewrite Hq.
Qed.

Lemma setID_withMembers ps hs j :
  setID (snd (withMembers ps hs
           (sha1.Write sha1.New (bytes (strconv.FormatUint (N.of_nat j))),
            {| Device := {| v1beta1.ID := ""; v1beta1.Health := v1beta1.Healthy |};
               deviceSpecs := []; mounts := [] |})))
        (fmt.Sprintf_x (sha1.Sum (fst (withMembers ps hs
           (sha1.Write sha1.New (bytes (strconv.FormatUint (N.of_nat j))),
            {| Device := {| v1beta1.ID := ""; v1beta1.Health := v1beta1.Healthy |};
               deviceSpecs := []; mounts := [] |}))))) =
  unitOf ps hs j.
Proof. reflexivity. Qed.

(** [newDevice] returns the unit of the i-th matches when every member has
    an i-th match, and panics otherwise. *)
Lemma newDevice_spec group paths i j :
  List.length (Paths group) = List.length paths ->
  match column paths i with
  | Some hs => newDevice group paths i j = Ok (unitOf (Paths group) hs j)
  | None => exists q, newDevice group paths i j = Panic q
  end.
Proof.
  intros Hlen. unfold newDevice, addMembers, for_range.
  pose proof (addMembers_from paths i (Paths group) 0 paths
    (sha1.Write sha1.New (bytes (strconv.FormatUint (N.of_nat j))),
     {| Device := {| v1beta1.ID := ""; v1beta1.Health := v1beta1.Healthy |};
        deviceSpecs := []; mounts := [] |}) Hlen (fun n => eq_refl)) as H.
  destruct (column paths i) as [hs|].
  - rewrite H. cbn -[withMembers]. by rewrite <- setID_withMembers.
  - destruct H as [q Hq]. exists q. by rewrite Hq.
Qed.

(** [sort.Strings] returns its argument rearranged in increasing order. *)
Lemma insert_Permutation s l : sort.insert s l ≡ₚ s :: l.
Proof.
  induction l as [|x l IH]; cbn; [done|].
  destruct (String.leb s x); [done|].
  rewrite IH. apply Permutation_swap.
Qed.

Lemma Strings_Permutation l : sort.Strings l ≡ₚ l.
Proof.
  induction l as [|x l IH]; cbn; [done|].
  by rewrite insert_Permutation, IH.
Qed.

Lemma Strings_length l : List.length (sort.Strings l) = List.length l.
Proof. by rewrite Strings_Permutation. Qed.

Lemma leb_total s t : String.leb s t = false -> String.leb t s = true.
Proof.
  unfold String.leb. rewrite (String.compare_antisym s t).
  by destruct (String.compare t s).
Qed.

Lemma insert_Sorted s l :
  Sorted (fun a b => String.leb a b = true) l ->
  Sorted (fun a b => String.leb a b = true) (sort.insert s l).
Proof.
  induction 1 as [|x l Hl IH Hx]; cbn.
  - by repeat constructor.
  - destruct (String.leb s x) eqn:Hs.
    + by repeat constructor.
    + constructor; [done|].
      destruct Hx as [|y l Hxy]; cbn.
      * constructor. by apply leb_total.
      * destruct (String.leb s y); constructor; [by apply leb_total|done].
Qed.

Lemma Strings_Sorted l : Sorted (fun a b => String.leb a b = true) (sort.Strings l).
Proof.
  induction l as [|x l IH]; cbn; [constructor|]. by apply insert_Sorted.
Qed.

(** On non-empty match lists the loop's bookkeeping computes the minimum. *)
Lemma trackLength_min_from lens :
  forall x, 0 < x -> Forall (fun m => 0 < m) lens ->
            fold_left trackLength lens x = fold_left Nat.min lens x.
Proof.
  induction lens as [|m lens IH]; intros x Hx Hall; cbn; [done|].
  inversion Hall as [|? ? Hm Hrest]; subst.
  assert (Hstep : trackLength x m = Nat.min x m).
  { unfold trackLength. destruct (Nat.eqb_spec x 0); [lia|].
    cbn [orb]. destruct (Nat.ltb_spec m x); lia. }
  rewrite Hstep. apply IH; [lia|done].
Qed.

Lemma trackLength_min lens :
  Forall (fun m => 0 < m) lens -> fold_left trackLength lens 0 = min_list lens.
Proof.
  destruct lens as [|x lens]; [done|]. intros Hall.
  inversion Hall; subst. cbn. by apply trackLength_min_from.
Qed.

Lemma fold_min_le lens : forall x, fold_left Nat.min lens x <= x.
Proof.
  induction lens as [|m lens IH]; intros x; cbn; [lia|].
  specialize (IH (Nat.min x m)). lia.
Qed.

Lemma fold_min_le_each lens m :
  m ∈ lens -> forall x, fold_left Nat.min lens x <= m.
Proof.
  induction lens as [|y lens IH]; intros Hin x; [by inversion Hin|].
  cbn. apply elem_of_cons in Hin as [->|Hin].
  - pose proof (fold_min_le lens (Nat.min x y)). lia.
  - by apply IH.
Qed.

Lemma min_list_le lens m : m ∈ lens -> min_list lens <= m.
Proof.
  destruct lens as [|x lens]; [by inversion 1|].
  cbn. intros [->|Hin]%elem_of_cons.
  - apply fold_min_le.
  - by apply fold_min_le_each.
Qed.

(** A column exists exactly below the length of every row. *)
Lemma column_is_Some rows i :
  is_Some (column rows i) <-> Forall (fun row : list string => i < List.length row) rows.
Proof.
  unfold column. rewrite mapM_is_Some. apply Forall_proper; [|done].
  intros row. cbn. by rewrite lookup_lt_is_Some.
Qed.

Lemma column_Some rows i hs :
  column rows i = Some hs <-> Forall2 (fun (row : list string) hp => row !! i = Some hp) rows hs.
Proof. apply mapM_Some. Qed.

(** The units of match index [i]: one per repetition, none when some member
    has no i-th match. *)
Definition unitsAt (ps : list Path) (rows : list (list string)) (count i : nat)
  : list device :=
  match column rows i with
  | Some hs => map (unitOf ps hs) (seq 0 count)
  | None => []
  end.

(** The two nested loops over match index and repetition. *)
Definition unitLoops (group : Group) (paths : list (list string)) (length : nat)
    (devices : list device) : outcome (list device) :=
  for_upto length
    (fun i devices =>
       for_upto (Count group)
         (fun j devices =>
            d ← newDevice group paths i j;
            Ok (devices ++ [d]))
         devices)
    devices.

Lemma discoverGroup_unfold host group devs :
  discoverGroup host group devs =
  (st ← globPaths host group; unitLoops group (fst st) (snd st) devs).
Proof.
  unfold discoverGroup. destruct (globPaths host group) as [[paths n]| |]; done.
Qed.

Lemma flat_map_singleton {A B : Type} (f : A -> B) (l : list A) :
  flat_map (fun a => [f a]) l = map f l.
Proof. induction l as [|a l IH]; cbn; [done|]. by rewrite IH. Qed.

Lemma unitLoops_Ok group paths n devs :
  List.length (Paths group) = List.length paths ->
  (forall i, i < n -> is_Some (column paths i)) ->
  unitLoops group paths n devs =
  Ok (devs ++ flat_map (unitsAt (Paths group) paths (Count group)) (seq 0 n)).
Proof.
  intros Hlen Hcol. unfold unitLoops, for_upto, for_range.
  apply for_range_from_collect. intros _ i s Hi.
  apply elem_of_seq in Hi. destruct (Hcol i) as [hs Hhs]; [lia|].
  unfold unitsAt. rewrite Hhs. rewrite <- flat_map_singleton.
  apply for_range_from_collect. intros _ j s' _.
  pose proof (newDevice_spec group paths i j Hlen) as Hnew.
  rewrite Hhs in Hnew. by rewrite Hnew.
Qed.

(** Every device the loops add is the unit of some match index and
    repetition. *)
Lemma unitLoops_inv group paths n devs devs' :
  List.length (Paths group) = List.length paths ->
  unitLoops group paths n devs = Ok devs' ->
  forall d, d ∈ devs' ->
    d ∈ devs \/
    exists i j hs, i < n /\ j < Count group /\ column paths i = Some hs /\
                   d = unitOf (Paths group) hs j.
Proof.
  intros Hlen Hrun.
  set (P := fun l : list device => forall d, d ∈ l ->
    d ∈ devs \/
    exists i j hs, i < n /\ j < Count group /\ column paths i = Some hs /\
                   d = unitOf (Paths group) hs j).
  revert Hrun. unfold unitLoops, for_upto, for_range.
  apply (for_range_from_invariant P); [|by left].
  intros _ i s s' Hi Hs.
  apply (for_range_from_invariant P); [|done].
  intros _ j t t' Hj Ht Hbody.
  apply elem_of_seq in Hi, Hj.
  pose proof (newDevice_spec group paths i j Hlen) as Hnew.
  destruct (column paths i) as [hs|] eqn:Hcol.
  - rewrite Hnew in Hbody. cbn in Hbody. injection Hbody as <-.
    intros d [Hd|Hd]%elem_of_app; [by apply Ht|].
    apply list_elem_of_singleton in Hd as ->.
    right. exists i, j, hs. repeat split; [lia|lia|done].
  - destruct Hnew as [q Hq]. by rewrite Hq in Hbody.
Qed.

Lemma map_Strings_length mss :
  map (@List.length string) (map sort.Strings mss) = map (@List.length string) mss.
Proof.
  rewrite map_map. apply map_ext. intros. apply Strings_length.
Qed.

(** A successful discovery of a group globbed every pattern and added only
    units of the sorted matches. *)
Lemma discoverGroup_inv host group devs devs' :
  discoverGroup host group devs = Ok devs' ->
  exists mss,
    globAll host (Paths group) = Some mss /\
    forall d, d ∈ devs' ->
      d ∈ devs \/
      exists i j hs, j < Count group /\
                     column (map sort.Strings mss) i = Some hs /\
                     d = unitOf (Paths group) hs j.
Proof.
  rewrite discoverGroup_unfold.
  destruct (globPaths host group) as [[paths n]| |] eqn:Hg; try discriminate.
  cbn. intros Hrun.
  destruct (globPaths_Ok_inv _ _ _ _ Hg) as (mss & Hall & -> & _).
  exists mss. split; [done|]. intros d Hd.
  assert (Hlen : List.length (Paths group) = List.length (map sort.Strings mss)).
  { rewrite length_map. by apply length_mapM in Hall. }
  destruct (unitLoops_inv _ _ _ _ _ Hlen Hrun d Hd) as [?|(i & j & hs & _ & ? & ? & ?)];
    [by left|right; eauto 10].
Qed.

(** When every pattern of the group has a match, discovery adds the units of
    the match indices below the minimum match count, each [Count] times. *)
Lemma discoverGroup_Ok host group mss devs :
  globAll host (Paths group) = Some mss ->
  Forall (fun ms : list string => ms <> []) mss ->
  discoverGroup host group devs =
  Ok (devs ++ flat_map (unitsAt (Paths group) (map sort.Strings mss) (Count group))
                       (seq 0 (min_list (map (@List.length string) mss)))).
Proof.
  intros Hall Hne. rewrite discoverGroup_unfold.
  rewrite (globPaths_Some _ _ _ Hall). cbn.
  rewrite map_Strings_length.
  assert (Hpos : Forall (fun m => 0 < m) (map (@List.length string) mss)).
  { apply Forall_fmap. eapply Forall_impl; [exact Hne|].
    intros [|] ?; cbn; [done|lia]. }
  rewrite (trackLength_min _ Hpos).
  apply unitLoops_Ok.
  - rewrite length_map. by apply length_mapM in Hall.
  - intros i Hi. apply column_is_Some. apply Forall_fmap.
    apply Forall_forall. intros ms Hms. cbn. rewrite Strings_length.
    assert (min_list (map (@List.length string) mss) <= List.length ms); [|lia].
    apply min_list_le. apply list_elem_of_fmap. eauto.
Qed.

(** Lists made of chunks of equal length. *)
Lemma flat_map_seq_length {B : Type} (g : nat -> list B) (c : nat) :
  forall n a,
    (forall k, a <= k < a + n -> List.length (g k) = c) ->
    List.length (flat_map g (seq a n)) = n * c.
Proof.
  induction n as [|n IH]; intros a Hg; cbn; [done|].
  rewrite length_app, Hg by lia. rewrite IH; [lia|].
  intros k Hk. apply Hg. lia.
Qed.

Lemma flat_map_seq_lookup {B : Type} (g : nat -> list B) (c : nat) :
  forall n a i j,
    (forall k, a <= k < a + n -> List.length (g k) = c) ->
    i < n -> j < c ->
    flat_map g (seq a n) !! (i * c + j) = g (a + i) !! j.
Proof.
  induction n as [|n IH]; intros a i j Hg Hi Hj; [lia|]. cbn.
  destruct i as [|i].
  - rewrite lookup_app_l by (rewrite Hg; lia). by rewrite Nat.add_0_r.
  - rewrite lookup_app_r by (rewrite Hg; lia).
    rewrite Hg by lia.
    replace (S i * c + j - c) with (i * c + j) by lia.
    rewrite IH; [|intros k Hk; apply Hg; lia|lia|lia].
    by replace (S a + i) with (a + S i) by lia.
Qed.

Lemma unitsAt_lookup ps rows c i j hs :
  column rows i = Some hs -> j < c ->
  unitsAt ps rows c i !! j = Some (unitOf ps hs j).
Proof.
  intros Hcol Hj. unfold unitsAt. rewrite Hcol.
  rewrite list_lookup_fmap, lookup_seq_lt by done. done.
Qed.

Lemma unitsAt_length ps rows c i :
  is_Some (column rows i) -> List.length (unitsAt ps rows c i) = c.
Proof.
  intros [hs Hcol]. unfold unitsAt. rewrite Hcol.
  by rewrite length_map, length_seq.
Qed.

(** C5. In a path-based group in which every pattern matches at least one
    path, discovery emits exactly min-match-count times [Count] units, where
    min-match-count is the minimum number of matches over the group's
    patterns; the unit at position [i * Count + j] is assembled from the i-th
    element of every pattern's sorted match list (the lists are sorted by
    [sort.Strings], see [Strings_Sorted] and [Strings_Permutation]), so the
    matches at the minimum index and beyond are in no unit. *)
Theorem discoverGroup_cardinality (host : Host) (group : Group)
    (mss : list (list string)) (devs : list device) :
  Forall2 (fun p ms => Glob host (p_Path p) = Some ms /\ ms <> []) (Paths group) mss ->
  exists units,
    discoverGroup host group devs = Ok (devs ++ units) /\
    List.length units = min_list (map (@List.length string) mss) * Count group /\
    forall i j,
      i < min_list (map (@List.length string) mss) -> j < Count group ->
      exists hs,
        Forall2 (fun ms hp => sort.Strings ms !! i = Some hp) mss hs /\
        units !! (i * Count group + j) = Some (unitOf (Paths group) hs j).
Proof.
  intros Hmatch.
  assert (Hall : globAll host (Paths group) = Some mss).
  { apply mapM_Some. eapply Forall2_impl; [exact Hmatch|]. by intros p ms [? _]. }
  assert (Hne : Forall (fun ms : list string => ms <> []) mss).
  { eapply Forall2_Forall_r; [exact Hmatch|]. apply Forall_forall.
    by intros p _ ms [_ ?]. }
  set (n := min_list (map (@List.length string) mss)).
  assert (Hcol : forall i, i < n -> is_Some (column (map sort.Strings mss) i)).
  { intros i Hi. apply column_is_Some. apply Forall_fmap.
    apply Forall_forall. intros ms Hms. cbn. rewrite Strings_length.
    assert (n <= List.length ms); [|lia].
    apply min_list_le. apply list_elem_of_fmap. eauto. }
  assert (Hlens : forall k, 0 <= k < 0 + n ->
            List.length (unitsAt (Paths group) (map sort.Strings mss) (Count group) k)
            = Count group).
  { intros k Hk. apply unitsAt_length, Hcol. lia. }
  exists (flat_map (unitsAt (Paths group) (map sort.Strings mss) (Count group)) (seq 0 n)).
  split; [by apply discoverGroup_Ok|]. split.
  - by apply flat_map_seq_length.
  - intros i j Hi Hj. destruct (Hcol i Hi) as [hs Hhs]. exists hs. split.
    + apply column_Some in Hhs. by apply Forall2_fmap_l in Hhs.
    + rewrite (flat_map_seq_lookup _ (Count group)) by done.
      by apply unitsAt_lookup.
Qed.


(** A group whose last pattern matches nothing yields no unit. *)
Lemma trackLength_last_zero lens : forall n, fold_left trackLength (lens ++ [0]) n = 0.
Proof.
  induction lens as [|m lens IH]; intros n; cbn; [|apply IH].
  unfold trackLength. destruct (Nat.eqb_spec n 0); [done|].
  cbn [orb]. destruct (Nat.ltb_spec 0 n); [done|lia].
Qed.

Lemma discoverGroup_missing_last host group mss devs :
  globAll host (Paths group) = Some (mss ++ [[]]) ->
  discoverGroup host group devs = Ok devs.
Proof.
  intros Hall. rewrite discoverGroup_unfold, (globPaths_Some _ _ _ Hall). cbn.
  rewrite map_Strings_length, map_app. cbn.
  by rewrite trackLength_last_zero.
Qed.

(** A group of two patterns of which only the second has matches makes
    discovery panic, whenever the group can be allocated at least once. *)
Lemma discoverGroup_missing_first host group p1 p2 ms devs :
  Paths group = [p1; p2] ->
  Glob host (p_Path p1) = Some [] ->
  Glob host (p_Path p2) = Some ms -> ms <> [] -> 0 < Count group ->
  exists q, discoverGroup host group devs = Panic q.
Proof.
  intros Hps H1 H2 Hms Hcount.
  assert (Hall : globAll host (Paths group) = Some [[]; ms]).
  { unfold globAll. rewrite Hps. cbn. by rewrite H1, H2. }
  rewrite discoverGroup_unfold, (globPaths_Some _ _ _ Hall). cbn.
  rewrite Strings_length.
  destruct ms as [|m ms]; [done|]. destruct (Count group) as [|c] eqn:Hc; [lia|].
  unfold unitLoops, for_upto, for_range. cbn [List.length seq for_range_from].
  assert (Hlen : List.length (Paths group) =
                 List.length [[]; sort.Strings (m :: ms)])
    by (by rewrite Hps).
  pose proof (newDevice_spec group _ 0 0 Hlen) as Hnew.
  assert (Hcol : column [[]; sort.Strings (m :: ms)] 0 = None)
    by (by rewrite column_cons).
  rewrite Hcol in Hnew. destruct Hnew as [q Hq].
  exists q. by rewrite Hq.
Qed.

(** ** USB discovery *)

(** The host paths of a USB group: the bus paths of the matches of every
    specification, in declaration order. *)
Definition usbPaths (usbDevs : list usbDevice) (group : Group) : list string :=
  flat_map (fun us => map BusPath (searchUSBDevices usbDevs (us_Vendor us) (us_Product us)))
           (USBSpecs group).

Lemma fold_left_app_flat_map {A B : Type} (f : A -> list B) (l : list A) :
  forall acc, fold_left (fun acc a => acc ++ f a) l acc = acc ++ flat_map f l.
Proof.
  induction l as [|a l IH]; intros acc; cbn; [by rewrite app_nil_r|].
  by rewrite IH, app_assoc.
Qed.

Lemma newUSBDevice_fold paths :
  forall h d,
    fst (fold_left
           (fun '(h, d) path =>
              (sha1.Write h (bytes path),
               {| Device := Device d;
                  deviceSpecs := deviceSpecs d ++
                    [ {| v1beta1.ds_HostPath := path;
                         v1beta1.ds_ContainerPath := path;
                         v1beta1.ds_Permissions := "rw" |} ];
                  mounts := mounts d |}))
           paths (h, d)) = h ++ concat (map bytes paths).
Proof.
  induction paths as [|x paths IH]; intros h d; cbn; [by rewrite app_nil_r|].
  rewrite IH. unfold sha1.Write. by rewrite app_assoc.
Qed.

(** The id of a USB unit follows the same scheme as that of a path unit. *)
Lemma newUSBDevice_id paths j : dID (newUSBDevice paths j) = unitID j paths.
Proof.
  unfold newUSBDevice, unitID.
  pose proof (newUSBDevice_fold paths
    (sha1.Write sha1.New (bytes (strconv.FormatUint (N.of_nat j))))
    {| Device := {| v1beta1.ID := ""; v1beta1.Health := v1beta1.Healthy |};
       deviceSpecs := []; mounts := [] |}) as Hfold.
  destruct (fold_left _ paths _) as [h d]. cbn in Hfold. subst h. done.
Qed.

Lemma discoverUSB_unit_id host spec devs d :
  discoverUSB host spec = Ok devs -> d ∈ devs ->
  exists group j usbDevs,
    group ∈ Groups spec /\ j < Count group /\
    enumerateUSBDevices host usbDevicesDir = Ok usbDevs /\
    dID d = unitID j (usbPaths usbDevs group).
Proof.
  intros Hrun. revert d.
  set (P := fun l : list device => forall d, d ∈ l ->
    exists group j usbDevs,
      group ∈ Groups spec /\ j < Count group /\
      enumerateUSBDevices host usbDevicesDir = Ok usbDevs /\
      dID d = unitID j (usbPaths usbDevs group)).
  revert Hrun. unfold discoverUSB, for_range.
  apply (for_range_from_invariant P); [|by intros d Hd; inversion Hd].
  intros _ group s s' Hgroup Hs. unfold discoverUSBGroup.
  destruct (enumerateUSBDevices host usbDevicesDir) as [usbDevs| |] eqn:Henum;
    cbn; try discriminate.
  rewrite (fold_left_app_flat_map
             (fun dev => map BusPath (searchUSBDevices usbDevs (us_Vendor dev)
                                                       (us_Product dev)))).
  cbn. fold (usbPaths usbDevs group).
  destruct (List.length (usbPaths usbDevs group));
    [intros [= <-]; exact Hs|].
  unfold for_upto, for_range.
  apply (for_range_from_invariant P); [|done].
  intros _ j t t' Hj%elem_of_seq Ht [= <-] d [Hd|Hd]%elem_of_app; [by apply Ht|].
  apply list_elem_of_singleton in Hd as ->.
  exists group, j, usbDevs. repeat split; [done|lia|apply newUSBDevice_id].
Qed.

(** ** The inventory *)

Lemma addDevices_not_equal old discovered :
  forall new, snd (addDevices old discovered new false) = false.
Proof.
  unfold addDevices.
  induction discovered as [|d discovered IH]; intros new; cbn; [done|].
  destruct (old !! dID d); apply IH.
Qed.

(** [refreshDevices] never reports "unchanged": [equal] starts out [false]
    and the loop only ever assigns [false] to it. *)
Lemma refreshDevices_never_unchanged host gp :
  snd (refreshDevices host gp) <> Ok true.
Proof.
  unfold refreshDevices.
  destruct (discover host (ds gp)) as [discovered| |]; cbn; try discriminate.
  pose proof (addDevices_not_equal (devices gp) discovered ∅) as Heq.
  destruct (addDevices (devices gp) discovered ∅ false) as [new equal].
  cbn in Heq. subst equal. cbn. discriminate.
Qed.

Lemma addDevices_lookup old discovered :
  forall new equal id d,
    fst (addDevices old discovered new equal) !! id = Some d ->
    d ∈ discovered \/ new !! id = Some d.
Proof.
  unfold addDevices.
  induction discovered as [|x discovered IH]; intros new equal id d Hd; cbn in Hd.
  - by right.
  - apply IH in Hd as [Hd|Hd]; [left; by right|].
    destruct (decide (dID x = id)) as [<-|Hne].
    + rewrite lookup_insert_eq in Hd. left. injection Hd as ->. by left.
    + rewrite lookup_insert_ne in Hd by done. by right.
Qed.

(** The ids stored by a successful refresh are the ids discovered. *)
Lemma addDevices_dom old discovered :
  forall new equal id,
    is_Some (fst (addDevices old discovered new equal) !! id) <->
    (exists d, d ∈ discovered /\ dID d = id) \/ is_Some (new !! id).
Proof.
  unfold addDevices.
  induction discovered as [|x discovered IH]; intros new equal id; cbn.
  - split; [by right|]. intros [(d & Hd & _)|?]; [by inversion Hd|done].
  - rewrite IH. rewrite lookup_insert_is_Some. split.
    + intros [(d & Hd & Hid)|[Heq|[_ Hnew]]].
      * left. exists d. split; [by right|done].
      * left. exists x. split; [by left|done].
      * by right.
    + intros [(d & [->|Hd]%elem_of_cons & Hid)|Hnew].
      * right. by left.
      * left. by exists d.
      * destruct (decide (dID x = id)); [right; by left|right; by right].
Qed.

(** Discovery only constructs Healthy records. *)
Lemma discover_healthy host spec devs d :
  discover host spec = Ok devs -> d ∈ devs -> dHealth d = v1beta1.Healthy.
Proof.
  intros Hrun. revert d.
  set (P := fun l : list device => forall d, d ∈ l -> dHealth d = v1beta1.Healthy).
  revert Hrun. unfold discover, for_range.
  apply (for_range_from_invariant P); [|by intros d Hd; inversion Hd].
  intros _ group s s' _ Hs Hbody d Hd.
  destruct (discoverGroup_inv _ _ _ _ Hbody) as (mss & _ & Hunits).
  destruct (Hunits d Hd) as [Hold|(i & j & hs & _ & _ & ->)]; [by apply Hs|done].
Qed.

Definition all_healthy (m : gmap string device) : Prop :=
  forall id d, m !! id = Some d -> dHealth d = v1beta1.Healthy.

Lemma refreshDevices_all_healthy host gp :
  all_healthy (devices gp) ->
  all_healthy (devices (fst (refreshDevices host gp))).
Proof.
  intros Hgp. unfold refreshDevices.
  destruct (discover host (ds gp)) as [discovered| |] eqn:Hd; cbn; try done.
  pose proof (addDevices_lookup (devices gp) discovered ∅ false) as Hlook.
  destruct (addDevices (devices gp) discovered ∅ false) as [new equal].
  cbn in Hlook.
  assert (Hnew : all_healthy new).
  { intros id d Hid. destruct (Hlook id d Hid) as [Hin|Hempty].
    - by eapply discover_healthy.
    - by rewrite lookup_empty in Hempty. }
  destruct (negb equal); [done|].
  by destruct (removedAny (devices gp) new).
Qed.

Lemma Allocate_devices gp req : devices (fst (Allocate gp req)) = devices gp.
Proof.
  rewrite Allocate_unfold. by destruct (allocContainers gp req).
Qed.

Lemma Allocate_healthy_no_ErrNotHealthy gp req id :
  all_healthy (devices gp) -> snd (Allocate gp req) <> Err (ErrNotHealthy id).
Proof.
  intros Hgp. rewrite Allocate_unfold.
  destruct (allocContainers gp req) as [res|e|p] eqn:Hrun; cbn; try discriminate.
  intros Heq. injection Heq as ->.
  destruct (for_range_from_Err _ _ _ _ _ Hrun) as (k & r & res & _ & Hb).
  cbn in Hb.
  destruct (allocateContainer (devices gp) r) as [resp|e|p] eqn:Hc;
    cbn in Hb; try discriminate.
  injection Hb as ->.
  destruct (allocateContainer_ErrNotHealthy _ _ _ Hc) as (d & Hd & Hne).
  apply Hne. by apply (Hgp id).
Qed.

(** The states of the plugin: created by [NewGenericPlugin], then any
    sequence of refreshes, on whatever the host shows at the time, and of
    allocations. *)
Inductive reachable (spec : DeviceSpec) : GenericPlugin -> Prop :=
| reach_new : reachable spec (NewGenericPlugin spec)
| reach_refresh host gp :
    reachable spec gp -> reachable spec (fst (refreshDevices host gp))
| reach_Allocate req gp :
    reachable spec gp -> reachable spec (fst (Allocate gp req)).

(** C10. Every record stored in the device map of the plugin is Healthy:
    discovery only constructs Healthy records, the map starts out empty and
    every refresh and every allocation preserves the invariant; so
    [Allocate] never returns its "requested device is not healthy" error,
    and [GetDeviceState] answers Healthy. *)
Theorem devices_always_healthy (spec : DeviceSpec) (gp : GenericPlugin) :
  reachable spec gp ->
  all_healthy (devices gp) /\
  (forall host, all_healthy (devices (fst (refreshDevices host gp)))) /\
  (forall host devs d, discover host (ds gp) = Ok devs -> d ∈ devs ->
                       dHealth d = v1beta1.Healthy) /\
  (forall req id, snd (Allocate gp req) <> Err (ErrNotHealthy id)) /\
  (forall id, GetDeviceState gp id = v1beta1.Healthy).
Proof.
  intros Hreach.
  assert (Hinv : all_healthy (devices gp)).
  { induction Hreach as [|host gp _ IH|req gp _ IH].
    - intros id d Hd. cbn in Hd. by rewrite lookup_empty in Hd.
    - by apply refreshDevices_all_healthy.
    - by rewrite Allocate_devices. }
  split; [done|]. split; [|split; [|split]].
  - intros host. by apply refreshDevices_all_healthy.
  - intros host devs d. apply discover_healthy.
  - intros req id. by apply Allocate_healthy_no_ErrNotHealthy.
  - done.
Qed.

(** ** Identity of repetitions *)

Lemma bytes_inj s t : bytes s = bytes t -> s = t.
Proof.
  unfold bytes. intros H.
  rewrite <- (string_of_list_byte_of_string s), <- (string_of_list_byte_of_string t).
  by rewrite H.
Qed.

Lemma FormatUint_inj n m : strconv.FormatUint n = strconv.FormatUint m -> n = m.
Proof.
  unfold strconv.FormatUint. intros H.
  assert (Hu : N.to_uint n = N.to_uint m).
  { apply (f_equal NilEmpty.uint_of_string) in H.
    rewrite !NilEmpty.usu in H. congruence. }
  rewrite <- (DecimalN.Unsigned.of_to n), <- (DecimalN.Unsigned.of_to m).
  by rewrite Hu.
Qed.

(** Two repetitions of the same host paths write different bytes to the
    digest. *)
Lemma digest_input_inj (j j' : nat) (hs : list string) :
  bytes (strconv.FormatUint (N.of_nat j)) ++ concat (map bytes hs) =
  bytes (strconv.FormatUint (N.of_nat j')) ++ concat (map bytes hs) ->
  j = j'.
Proof.
  intros H. apply app_inv_tail in H.
  apply bytes_inj, FormatUint_inj in H. lia.
Qed.

(** ** Scenarios of the repository's tests *)

Module scenario.

(** A pattern of [*] and [?], neither of which matches a separator, and
    literal characters. *)
Fixpoint glob_match (pattern : string) : string -> bool :=
  match pattern with
  | EmptyString => fun s => match s with EmptyString => true | _ => false end
  | String c pattern' =>
      if Ascii.eqb c "*" then
        fix star (s : string) : bool :=
          glob_match pattern' s ||
          match s with
          | EmptyString => false
          | String x s' => negb (Ascii.eqb x "/") && star s'
          end
      else
        fun s =>
          match s with
          | EmptyString => false
          | String x s' =>
              ((Ascii.eqb c "?" && negb (Ascii.eqb x "/")) || Ascii.eqb c x)
              && glob_match pattern' s'
          end
  end.

Fixpoint assoc {V : Type} (l : list (string * V)) (k : string) : option V :=
  match l with
  | [] => None
  | (a, v) :: l' => if String.eqb a k then Some v else assoc l' k
  end.

(** A host in the manner of the in-memory file systems of the tests: the
    paths that exist, the entries of the directories that can be read and
    the contents of the files that can be read. *)
Definition mapFS (paths : list string) (dirs : list (string * list DirEntry))
    (files : list (string * string)) : Host :=
  {| Glob := fun pattern => Some (filter (fun p => glob_match pattern p = true) paths);
     ReadDir := assoc dirs;
     ReadFile := assoc files |}.

Definition path (p mountPath : string) : Path :=
  {| p_Path := p; p_MountPath := mountPath; p_Permissions := "";
     p_ReadOnly := false; p_Type := "" |}.

Definition pathGroup (ps : list Path) : Group :=
  {| Paths := ps; USBSpecs := []; Count := 0 |}.

Definition ttyUSB : Host :=
  mapFS ["/dev/ttyUSB3"; "/dev/ttyUSB1"; "/dev/ttyUSB0"; "/dev/ttyUSB2";
         "/dev/video0"; "/dev/video1"] [] [].

(** "simple" of [TestDiscoverPaths]. *)
Definition simpleFS : Host := mapFS ["/dev/simple"] [] [].
Definition simple : DeviceSpec :=
  Default {| dsName := "simple";
             Groups := [pathGroup [path "/dev/simple" ""]] |}.

(** "multiple with mount directory" of [TestDiscoverPaths]. *)
Definition mountDirectory : DeviceSpec :=
  Default {| dsName := "serial";
             Groups := [pathGroup [path "/dev/ttyUSB*" "/dev/serial/"]] |}.

(** "only one exists" of [TestDiscoverPaths]. *)
Definition onlyOneExistsFS : Host := mapFS ["/dev/does/exist"] [] [].
Definition onlyOneExists : DeviceSpec :=
  Default {| dsName := "only-one-exists";
             Groups := [pathGroup [path "/dev/does/not/exist" "";
                                   path "/dev/does/exist" ""]] |}.

(** A group whose patterns match four and two paths, twice allocatable. *)
Definition capped : Group :=
  Default_Group {| Paths := [path "/dev/ttyUSB*" ""; path "/dev/video*" ""];
                   USBSpecs := []; Count := 2 |}.

(** "serial" of [TestDiscoverUSB]: two devices of the same vendor and
    product whose serial attributes are 51 and 52. *)
Definition newline : string := String "010" EmptyString.

Definition usbFS : Host :=
  mapFS []
    [("/sys/bus/usb/devices/",
      [{| Name := "3-4"; IsDir := true |}; {| Name := "4-4"; IsDir := true |}])]
    [("/sys/bus/usb/devices/3-4/idVendor", "1050" +:+ newline);
     ("/sys/bus/usb/devices/3-4/idProduct", "0407" +:+ newline);
     ("/sys/bus/usb/devices/3-4/busnum", "3" +:+ newline);
     ("/sys/bus/usb/devices/3-4/devnum", "22" +:+ newline);
     ("/sys/bus/usb/devices/3-4/serial", "51" +:+ newline);
     ("/sys/bus/usb/devices/4-4/idVendor", "1050" +:+ newline);
     ("/sys/bus/usb/devices/4-4/idProduct", "0407" +:+ newline);
     ("/sys/bus/usb/devices/4-4/busnum", "4" +:+ newline);
     ("/sys/bus/usb/devices/4-4/devnum", "25" +:+ newline);
     ("/sys/bus/usb/devices/4-4/serial", "52" +:+ newline)].

Definition yubikey : USBSpec :=
  {| us_Vendor := 0x1050%N; us_Product := 0x0407%N |}.

End scenario.

(** ** The code on the scenarios *)

(** With an empty mount path the container path of a member is its host
    path. *)
Lemma containerPath_default p hostPath :
  p_MountPath p = "" -> containerPath p hostPath = hostPath.
Proof. intros H. unfold containerPath. by rewrite H. Qed.

(** A configured mount path is used as it is, whatever its last
    character. *)
Lemma containerPath_configured p hostPath :
  p_MountPath p <> "" -> containerPath p hostPath = p_MountPath p.
Proof.
  intros H. unfold containerPath.
  by destruct (String.eqb_spec (p_MountPath p) "").
Qed.

(** The unit of "simple": the digest is that of the text 0/dev/simple. *)
Definition simpleUnit : device :=
  {| Device := {| v1beta1.ID := "215585473dffcc63d9a640627ef61d110ca71186";
                  v1beta1.Health := v1beta1.Healthy |};
     deviceSpecs := [ {| v1beta1.ds_ContainerPath := "/dev/simple";
                         v1beta1.ds_HostPath := "/dev/simple";
                         v1beta1.ds_Permissions := "mrw" |} ];
     mounts := [] |}.

Lemma discover_simple : discover scenario.simpleFS scenario.simple = Ok [simpleUnit].
Proof. vm_compute. reflexivity. Qed.

Definition simplePlugin : GenericPlugin :=
  fst (refreshDevices scenario.simpleFS (NewGenericPlugin scenario.simple)).

Lemma simplePlugin_devices : devices simplePlugin = {[ dID simpleUnit := simpleUnit ]}.
Proof. vm_compute. reflexivity. Qed.

(** C1. On the host of "simple" the first refresh stores one id; the second
    refresh discovers and stores the same id set, and [refreshDevices] still
    returns [false], that is "changed". *)
Theorem refreshDevices_same_ids_reports_changed :
  dom (devices simplePlugin) = {[ dID simpleUnit ]} /\
  dom (devices (fst (refreshDevices scenario.simpleFS simplePlugin))) =
    dom (devices simplePlugin) /\
  snd (refreshDevices scenario.simpleFS simplePlugin) = Ok false.
Proof.
  split; [|split].
  - rewrite simplePlugin_devices. apply dom_singleton_L.
  - vm_compute. reflexivity.
  - vm_compute. reflexivity.
Qed.

(** C2. "only one exists": the first pattern of the group matches nothing,
    the second matches one path; discovery panics with an index out of
    range instead of returning no units. *)
Theorem discover_only_one_exists_panics :
  Glob scenario.onlyOneExistsFS "/dev/does/not/exist" = Some [] /\
  Glob scenario.onlyOneExistsFS "/dev/does/exist" = Some ["/dev/does/exist"] /\
  discover scenario.onlyOneExistsFS scenario.onlyOneExists =
    Panic (IndexOutOfRange 0 0).
Proof. repeat split; vm_compute; reflexivity. Qed.

(** C3. The bus path of the device on bus 3 with device number 22 carries a
    plus sign before each number. *)
Theorem BusPath_bus3_dev22 :
  BusPath {| Vendor := 0x1050%N; Product := 0x0407%N; Bus := 3%N; BusDevice := 22%N |}
  = "/dev/bus/usb/+003/+022".
Proof. vm_compute. reflexivity. Qed.

(** C4. "multiple with mount directory": with the mount path /dev/serial/
    every unit gets the container path /dev/serial/ itself, the base name of
    the matched file is not appended. *)
Theorem discover_mount_directory :
  (devs ← discover scenario.ttyUSB scenario.mountDirectory;
   Ok (flat_map (fun d => map (fun s => (v1beta1.ds_HostPath s,
                                         v1beta1.ds_ContainerPath s))
                              (deviceSpecs d)) devs)) =
  Ok [("/dev/ttyUSB0", "/dev/serial/"); ("/dev/ttyUSB1", "/dev/serial/");
      ("/dev/ttyUSB2", "/dev/serial/"); ("/dev/ttyUSB3", "/dev/serial/")].
Proof. vm_compute. reflexivity. Qed.

(** C8. "serial": the device in 3-4 has the serial attribute 51 and the one
    in 4-4 has 52; [searchUSBDevices] takes no serial and returns both for
    the vendor and product of the specification. *)
Theorem searchUSBDevices_ignores_serial :
  ReadFile scenario.usbFS "/sys/bus/usb/devices/3-4/serial"
    = Some ("51" +:+ scenario.newline) /\
  ReadFile scenario.usbFS "/sys/bus/usb/devices/4-4/serial"
    = Some ("52" +:+ scenario.newline) /\
  (usbDevs ← enumerateUSBDevices scenario.usbFS usbDevicesDir;
   Ok (map (fun dev => (Bus dev, BusDevice dev))
           (searchUSBDevices usbDevs (us_Vendor scenario.yubikey)
                             (us_Product scenario.yubikey)))) =
  Ok [(3%N, 0x22%N); (4%N, 0x25%N)].
Proof. repeat split; vm_compute; reflexivity. Qed.

(** ** The theorems at work *)

(** The group of [scenario.capped] on the host [scenario.ttyUSB]: four and
    two matches, so two match indices, each twice. *)
Lemma discoverGroup_cardinality_capped :
  exists units,
    discoverGroup scenario.ttyUSB scenario.capped [] = Ok ([] ++ units) /\
    List.length units =
      min_list (map (@List.length string)
                    [["/dev/ttyUSB3"; "/dev/ttyUSB1"; "/dev/ttyUSB0"; "/dev/ttyUSB2"];
                     ["/dev/video0"; "/dev/video1"]]) * Count scenario.capped /\
    forall i j,
      i < min_list (map (@List.length string)
                    [["/dev/ttyUSB3"; "/dev/ttyUSB1"; "/dev/ttyUSB0"; "/dev/ttyUSB2"];
                     ["/dev/video0"; "/dev/video1"]]) ->
      j < Count scenario.capped ->
      exists hs,
        Forall2 (fun ms hp => sort.Strings ms !! i = Some hp)
                [["/dev/ttyUSB3"; "/dev/ttyUSB1"; "/dev/ttyUSB0"; "/dev/ttyUSB2"];
                 ["/dev/video0"; "/dev/video1"]] hs /\
        units !! (i * Count scenario.capped + j) =
          Some (unitOf (Paths scenario.capped) hs j).
Proof.
  apply (discoverGroup_cardinality scenario.ttyUSB scenario.capped).
  repeat constructor; vm_compute; congruence.
Defined.


(** Two containers, the first asking for the unit twice; and a request
    naming an id that is not in the map. *)
Definition twiceRequest : v1beta1.AllocateRequest :=
  {| v1beta1.ContainerRequests :=
       [ {| v1beta1.DevicesIDs := [dID simpleUnit; dID simpleUnit] |};
         {| v1beta1.DevicesIDs := [dID simpleUnit] |} ] |}.

Definition unknownRequest : v1beta1.AllocateRequest :=
  {| v1beta1.ContainerRequests :=
       [ {| v1beta1.DevicesIDs := [dID simpleUnit] |};
         {| v1beta1.DevicesIDs := [dID simpleUnit; "no-such-id"] |} ] |}.

Lemma Allocate_all_or_nothing_simple :
  (exists e, Allocate simplePlugin unknownRequest = (simplePlugin, Err e)) /\
  snd (Allocate simplePlugin twiceRequest) =
  Ok {| v1beta1.ContainerResponses :=
          map (allocated (devices simplePlugin))
              (v1beta1.ContainerRequests twiceRequest) |}.
Proof.
  split.
  - apply (proj1 (Allocate_all_or_nothing simplePlugin unknownRequest)).
    exists {| v1beta1.DevicesIDs := [dID simpleUnit; "no-such-id"] |}, "no-such-id".
    split; [apply list_elem_of_further, list_elem_of_here|].
    split; [apply list_elem_of_further, list_elem_of_here|].
    vm_compute. reflexivity.
  - apply (proj2 (Allocate_all_or_nothing simplePlugin twiceRequest)).
    intros r id Hr Hid. exists simpleUnit.
    assert (id = dID simpleUnit) as ->.
    { cbn in Hr. repeat (apply elem_of_cons in Hr as [->|Hr]);
        [| |by inversion Hr]; cbn in Hid;
        repeat (apply elem_of_cons in Hid as [->|Hid]); try done;
        by inversion Hid. }
    split; vm_compute; reflexivity.
Defined.

Lemma devices_always_healthy_simple :
  all_healthy (devices simplePlugin) /\
  (forall host, all_healthy (devices (fst (refreshDevices host simplePlugin)))) /\
  (forall host devs d, discover host (ds simplePlugin) = Ok devs -> d ∈ devs ->
                       dHealth d = v1beta1.Healthy) /\
  (forall req id, snd (Allocate simplePlugin req) <> Err (ErrNotHealthy id)) /\
  (forall id, GetDeviceState simplePlugin id = v1beta1.Healthy).
Proof.
  apply (devices_always_healthy scenario.simple simplePlugin).
  apply reach_refresh, reach_new.
Defined.

(** * Further properties of the code *)

(** ** Loops, continued *)

Lemma for_range_from_app {A St : Type} (l1 l2 : list A)
    (body : nat -> A -> St -> outcome St) :
  forall k s,
    for_range_from k (l1 ++ l2) body s =
    (s' ← for_range_from k l1 body s;
     for_range_from (k + List.length l1) l2 body s').
Proof.
  induction l1 as [|a l1 IH]; intros k s; cbn.
  - by rewrite Nat.add_0_r.
  - destruct (body k a s) as [s1| |]; cbn; [|done|done].
    rewrite IH. by replace (S k + List.length l1) with (k + S (List.length l1)) by lia.
Qed.

(** A loop whose body only appends to what it is given can be run on the
    empty list and its result appended afterwards. *)
Lemma for_range_from_acc {A B : Type} (l : list A)
    (body : nat -> A -> list B -> outcome (list B)) :
  (forall k a s, a ∈ l -> body k a s = (u ← body k a []; Ok (s ++ u))) ->
  forall k s,
    for_range_from k l body s = (u ← for_range_from k l body []; Ok (s ++ u)).
Proof.
  induction l as [|a l IH]; intros Hbody k s; cbn.
  - by rewrite app_nil_r.
  - rewrite (Hbody k a s) by (by left).
    destruct (body k a []) as [u| |]; cbn; [|done|done].
    rewrite (IH (fun k a s Ha => Hbody k a s (list_elem_of_further _ _ _ Ha)) (S k) (s ++ u)).
    rewrite (IH (fun k a s Ha => Hbody k a s (list_elem_of_further _ _ _ Ha)) (S k) u).
    destruct (for_range_from (S k) l body []) as [v| |]; cbn; [|done|done].
    by rewrite app_assoc.
Qed.

(** The index a body is given does not matter when the body ignores it. *)
Lemma for_range_from_index {A St : Type} (l : list A) (body : A -> St -> outcome St) :
  forall k k' s,
    for_range_from k l (fun _ => body) s = for_range_from k' l (fun _ => body) s.
Proof.
  induction l as [|a l IH]; intros k k' s; cbn; [done|].
  destruct (body a s); cbn; [apply IH|done|done].
Qed.

(** ** [Default] *)

Lemma Default_Path_idempotent p : Default_Path (Default_Path p) = Default_Path p.
Proof.
  unfold Default_Path. cbn.
  destruct (String.eqb_spec (p_Type p) "") as [Ht|Ht]; cbn.
  - destruct (String.eqb_spec (p_Permissions p) "") as [Hp|Hp]; cbn; [done|].
    by destruct (String.eqb_spec (p_Permissions p) "").
  - destruct (String.eqb_spec (p_Type p) "") as [|_]; [done|].
    destruct (String.eqb (p_Type p) DevicePathType); cbn; [|done].
    destruct (String.eqb_spec (p_Permissions p) "") as [Hp|Hp]; cbn; [done|].
    by destruct (String.eqb_spec (p_Permissions p) "").
Qed.

Lemma Default_Group_idempotent g : Default_Group (Default_Group g) = Default_Group g.
Proof.
  unfold Default_Group. cbn. f_equal.
  - rewrite map_map. apply map_ext, Default_Path_idempotent.
  - by destruct (Count g).
Qed.

(** X1. Applying the defaults a second time changes nothing. *)
Theorem Default_idempotent (spec : DeviceSpec) : Default (Default spec) = Default spec.
Proof.
  unfold Default. cbn. f_equal.
  rewrite map_map. apply map_ext, Default_Group_idempotent.
Qed.

(** X2. After [Default] every group can be allocated at least once, every path
    has a type, and every path of type Device has permissions. *)
Theorem Default_fills (spec : DeviceSpec) (group : Group) (p : Path) :
  group ∈ Groups (Default spec) -> p ∈ Paths group ->
  0 < Count group /\ p_Type p <> "" /\
  (p_Type p = DevicePathType -> p_Permissions p <> "").
Proof.
  intros Hg Hp. cbn in Hg.
  apply list_elem_of_fmap in Hg as (g0 & -> & _).
  cbn in Hp. apply list_elem_of_fmap in Hp as (p0 & -> & _).
  split; [cbn; destruct (Count g0); cbn; lia|].
  unfold Default_Path. cbn.
  destruct (String.eqb_spec (p_Type p0) "") as [Ht|Ht]; cbn.
  - split; [done|]. intros _.
    by destruct (String.eqb_spec (p_Permissions p0) "").
  - split; [done|]. intros Hd. rewrite Hd. cbn.
    by destruct (String.eqb_spec (p_Permissions p0) "").
Qed.

Lemma Default_fills_simple :
  0 < Count (Default_Group (scenario.pathGroup [scenario.path "/dev/simple" ""])) /\
  p_Type (Default_Path (scenario.path "/dev/simple" "")) <> "" /\
  (p_Type (Default_Path (scenario.path "/dev/simple" "")) = DevicePathType ->
   p_Permissions (Default_Path (scenario.path "/dev/simple" "")) <> "").
Proof.
  apply (Default_fills {| dsName := "simple";
                          Groups := [scenario.pathGroup [scenario.path "/dev/simple" ""]] |}).
  - apply list_elem_of_here.
  - apply list_elem_of_here.
Defined.

(** ** Path discovery, continued *)

(** Every unit of a successful discovery is assembled from one match per
    member of one group. *)
Lemma discover_inv host spec devs d :
  discover host spec = Ok devs -> d ∈ devs ->
  exists group i j hs,
    group ∈ Groups spec /\ j < Count group /\
    Forall2 (fun p hp => exists ms, Glob host (p_Path p) = Some ms /\
                                    sort.Strings ms !! i = Some hp)
            (Paths group) hs /\
    d = unitOf (Paths group) hs j.
Proof.
  intros Hrun. revert d.
  set (P := fun l : list device => forall d, d ∈ l ->
    exists group i j hs,
      group ∈ Groups spec /\ j < Count group /\
      Forall2 (fun p hp => exists ms, Glob host (p_Path p) = Some ms /\
                                      sort.Strings ms !! i = Some hp)
              (Paths group) hs /\
      d = unitOf (Paths group) hs j).
  revert Hrun. unfold discover, for_range.
  apply (for_range_from_invariant P); [|by intros d Hd; inversion Hd].
  intros _ group s s' Hgroup Hs Hbody d Hd.
  destruct (discoverGroup_inv _ _ _ _ Hbody) as (mss & Hall & Hunits).
  destruct (Hunits d Hd) as [Hold|(i & j & hs & Hj & Hcol & ->)]; [by apply Hs|].
  exists group, i, j, hs. split; [done|]. split; [done|]. split; [|done].
  apply column_Some, Forall2_fmap_l in Hcol.
  apply mapM_Some in Hall.
  clear -Hall Hcol. revert hs Hcol.
  induction Hall as [|p ms ps mss Hp _ IH]; intros hs Hcol;
    inversion Hcol; subst; constructor; eauto.
Qed.

Lemma elem_of_concat_zip_with {A B C : Type} (R : A -> B -> Prop)
    (f : A -> B -> list C) (l : list A) (k : list B) (x : C) :
  Forall2 R l k -> x ∈ concat (zip_with f l k) ->
  exists a b, a ∈ l /\ R a b /\ x ∈ f a b.
Proof.
  induction 1 as [|a b l k Hab _ IH]; cbn; [by inversion 1|].
  intros [Hx|Hx]%elem_of_app.
  - exists a, b. split; [by left|done].
  - destruct (IH Hx) as (a' & b' & Ha' & HR & Hx').
    exists a', b'. split; [by right|done].
Qed.

(** X3. The units of a successful discovery only carry paths that a pattern of
    their group matched, with the container path, the permissions and the
    read-only flag of that pattern: a device spec for a pattern of type
    Device, a mount for a pattern of type Mount. *)
Theorem discover_members_are_matches (host : Host) (spec : DeviceSpec)
    (devs : list device) (d : device) :
  discover host spec = Ok devs -> d ∈ devs ->
  exists group,
    group ∈ Groups spec /\
    (forall s, s ∈ deviceSpecs d ->
       exists p ms,
         p ∈ Paths group /\ p_Type p = DevicePathType /\
         Glob host (p_Path p) = Some ms /\ v1beta1.ds_HostPath s ∈ ms /\
         v1beta1.ds_ContainerPath s = containerPath p (v1beta1.ds_HostPath s) /\
         v1beta1.ds_Permissions s = p_Permissions p) /\
    (forall m, m ∈ mounts d ->
       exists p ms,
         p ∈ Paths group /\ p_Type p = MountPathType /\
         Glob host (p_Path p) = Some ms /\ v1beta1.m_HostPath m ∈ ms /\
         v1beta1.m_ContainerPath m = containerPath p (v1beta1.m_HostPath m) /\
         v1beta1.m_ReadOnly m = p_ReadOnly p).
Proof.
  intros Hrun Hd.
  destruct (discover_inv _ _ _ _ Hrun Hd) as (group & i & j & hs & Hg & _ & Hms & ->).
  exists group. split; [done|]. split.
  - intros s Hs. cbn in Hs.
    destruct (elem_of_concat_zip_with _ _ _ _ _ Hms Hs)
      as (p & hp & Hp & (ms & Hglob & Hi) & Hmem).
    unfold memberSpec in Hmem.
    destruct (String.eqb_spec (p_Type p) DevicePathType) as [Ht|]; [|by inversion Hmem].
    apply list_elem_of_singleton in Hmem as ->. cbn.
    exists p, ms. repeat split; try done.
    rewrite <- (Strings_Permutation ms). by eapply list_elem_of_lookup_2.
  - intros m Hm. cbn in Hm.
    destruct (elem_of_concat_zip_with _ _ _ _ _ Hms Hm)
      as (p & hp & Hp & (ms & Hglob & Hi) & Hmem).
    unfold memberMount in Hmem.
    destruct (String.eqb_spec (p_Type p) DevicePathType) as [|_]; [by inversion Hmem|].
    destruct (String.eqb_spec (p_Type p) MountPathType) as [Ht|]; [|by inversion Hmem].
    apply list_elem_of_singleton in Hmem as ->. cbn.
    exists p, ms. repeat split; try done.
    rewrite <- (Strings_Permutation ms). by eapply list_elem_of_lookup_2.
Qed.

Lemma globPath_Err host k p st e :
  globPath host k p st = Err e ->
  Glob host (p_Path p) = None /\ e = ErrBadPattern (p_Path p).
Proof.
  destruct st as [paths n]. unfold globPath.
  destruct (Glob host (p_Path p)); [discriminate|]. by intros [= <-].
Qed.

Lemma unitLoops_no_Err group paths n devs e :
  List.length (Paths group) = List.length paths ->
  unitLoops group paths n devs <> Err e.
Proof.
  intros Hlen Hrun.
  destruct (for_range_from_Err _ _ _ _ _ Hrun) as (_ & i & s & _ & Hinner).
  destruct (for_range_from_Err _ _ _ _ _ Hinner) as (_ & j & t & _ & Hbody).
  pose proof (newDevice_spec group paths i j Hlen) as Hnew.
  destruct (column paths i).
  - by rewrite Hnew in Hbody.
  - destruct Hnew as [q Hq]. by rewrite Hq in Hbody.
Qed.

Lemma discover_Err_inv host spec e :
  discover host spec = Err e ->
  exists group p,
    group ∈ Groups spec /\ p ∈ Paths group /\
    Glob host (p_Path p) = None /\ e = ErrBadPattern (p_Path p).
Proof.
  intros Hrun.
  destruct (for_range_from_Err _ _ _ _ _ Hrun) as (_ & group & s & Hg & Hbody).
  rewrite discoverGroup_unfold in Hbody.
  destruct (globPaths host group) as [[paths n]|e'|] eqn:Hglob; cbn in Hbody.
  - exfalso. destruct (globPaths_Ok_inv _ _ _ _ Hglob) as (mss & Hall & -> & _).
    eapply unitLoops_no_Err; [|exact Hbody].
    rewrite length_map. by apply length_mapM in Hall.
  - injection Hbody as ->.
    destruct (for_range_from_Err _ _ _ _ _ Hglob) as (k & p & st & Hp & Hstep).
    apply globPath_Err in Hstep as [Hnone ->].
    by exists group, p.
  - discriminate.
Qed.


Lemma unitLoops_acc group paths n devs :
  unitLoops group paths n devs =
  (u ← unitLoops group paths n []; Ok (devs ++ u)).
Proof.
  unfold unitLoops, for_upto, for_range.
  apply for_range_from_acc. intros _ i s _.
  apply for_range_from_acc. intros _ j t _.
  destruct (newDevice group paths i j); cbn; [|done|done].
  done.
Qed.

(** What a group adds does not depend on what was discovered before it. *)
Lemma discoverGroup_acc host group devs :
  discoverGroup host group devs =
  (u ← discoverGroup host group []; Ok (devs ++ u)).
Proof.
  rewrite !discoverGroup_unfold.
  destruct (globPaths host group) as [[paths n]| |]; cbn; [|done|done].
  apply unitLoops_acc.
Qed.

Lemma discover_groups_acc host groups :
  forall k devs,
    for_range_from k groups (fun _ group devices => discoverGroup host group devices) devs =
    (u ← for_range_from k groups
           (fun _ group devices => discoverGroup host group devices) [];
     Ok (devs ++ u)).
Proof.
  intros k devs. apply for_range_from_acc. intros _ g s _. apply discoverGroup_acc.
Qed.

(** X5. Discovery over the groups of two lists is discovery over the first
    followed by discovery over the second: the units come in the order of the
    groups, and an error or a panic in any group leaves no units at all. *)
Theorem discover_app (host : Host) (name : string) (groups1 groups2 : list Group) :
  discover host {| dsName := name; Groups := groups1 ++ groups2 |} =
  (devs1 ← discover host {| dsName := name; Groups := groups1 |};
   devs2 ← discover host {| dsName := name; Groups := groups2 |};
   Ok (devs1 ++ devs2)).
Proof.
  unfold discover, for_range. cbn [Groups].
  rewrite for_range_from_app.
  destruct (for_range_from 0 groups1 _ []) as [devs1| |]; cbn; [|done|done].
  rewrite discover_groups_acc.
  by rewrite (for_range_from_index groups2 (discoverGroup host) _ 0).
Qed.

Lemma column_singleton (row : list string) i :
  column [row] i = (fun h => [h]) <$> row !! i.
Proof. rewrite column_cons. by destruct (row !! i). Qed.

Lemma flat_map_ext_elem {A B : Type} (f g : A -> list B) (l : list A) :
  (forall a, a ∈ l -> f a = g a) -> flat_map f l = flat_map g l.
Proof.
  induction l as [|a l IH]; intros H; cbn; [done|].
  rewrite (H a) by (by left). f_equal. apply IH. intros. apply H. by right.
Qed.

Lemma flat_map_lookup_seq {A B : Type} (f : A -> B) (row : list A) :
  flat_map (fun i => match row !! i with Some a => [f a] | None => [] end)
           (seq 0 (List.length row)) = map f row.
Proof.
  induction row as [|a row IH] using rev_ind; [done|].
  rewrite length_app, Nat.add_comm. cbn [List.length Nat.add].
  rewrite seq_S, flat_map_app, map_app. cbn. f_equal.
  - rewrite <- IH. apply flat_map_ext_elem. intros i Hi%elem_of_seq.
    by rewrite lookup_app_l by lia.
  - rewrite list_lookup_middle by done. done.
Qed.

(** The unit of a specification of one pattern with all other fields left
    to their defaults: the matched path as a device at the same path in the
    container, with the permissions mrw. *)
Definition plainUnit (hostPath : string) : device :=
  {| Device := {| v1beta1.ID := unitID 0 [hostPath];
                  v1beta1.Health := v1beta1.Healthy |};
     deviceSpecs := [ {| v1beta1.ds_ContainerPath := hostPath;
                         v1beta1.ds_HostPath := hostPath;
                         v1beta1.ds_Permissions := "mrw" |} ];
     mounts := [] |}.

Definition plainSpec (name pattern : string) : DeviceSpec :=
  {| dsName := name;
     Groups := [ {| Paths := [ {| p_Path := pattern; p_MountPath := "";
                                  p_Permissions := ""; p_ReadOnly := false;
                                  p_Type := "" |} ];
                    USBSpecs := []; Count := 0 |} ] |}.

(** X6. A defaulted specification of a single pattern yields one unit per match,
    in sorted order; none, and no failure, when nothing matches. *)
Theorem discover_plain (host : Host) (name pattern : string) (ms : list string) :
  Glob host pattern = Some ms ->
  discover host (Default (plainSpec name pattern)) =
  Ok (map plainUnit (sort.Strings ms)).
Proof.
  intros Hglob. unfold discover, for_range. cbn [Default plainSpec Groups map for_range_from].
  rewrite discoverGroup_unfold.
  rewrite (globPaths_Some _ _ [ms]) by (unfold globAll; cbn; by rewrite Hglob).
  cbn [mbind outcome_bind fst snd map fold_left].
  replace (trackLength 0 (List.length (sort.Strings ms)))
    with (List.length (sort.Strings ms)) by done.
  rewrite unitLoops_Ok.
  - cbn [app mbind outcome_bind]. f_equal.
    rewrite <- (flat_map_lookup_seq plainUnit (sort.Strings ms)).
    apply flat_map_ext_elem. intros i _.
    unfold unitsAt. rewrite column_singleton.
    by destruct (sort.Strings ms !! i).
  - done.
  - intros i Hi. rewrite column_singleton.
    apply lookup_lt_is_Some_2 in Hi as [h ->]. by eexists.
Qed.

Lemma discover_plain_ttyUSB :
  discover scenario.ttyUSB (Default (plainSpec "serial" "/dev/ttyUSB*")) =
  Ok (map plainUnit
          (sort.Strings ["/dev/ttyUSB3"; "/dev/ttyUSB1"; "/dev/ttyUSB0"; "/dev/ttyUSB2"])).
Proof.
  apply (discover_plain scenario.ttyUSB "serial" "/dev/ttyUSB*").
  vm_compute. reflexivity.
Defined.

Lemma discover_members_are_matches_simple :
  exists group,
    group ∈ Groups scenario.simple /\
    (forall s, s ∈ deviceSpecs simpleUnit ->
       exists p ms,
         p ∈ Paths group /\ p_Type p = DevicePathType /\
         Glob scenario.simpleFS (p_Path p) = Some ms /\ v1beta1.ds_HostPath s ∈ ms /\
         v1beta1.ds_ContainerPath s = containerPath p (v1beta1.ds_HostPath s) /\
         v1beta1.ds_Permissions s = p_Permissions p) /\
    (forall m, m ∈ mounts simpleUnit ->
       exists p ms,
         p ∈ Paths group /\ p_Type p = MountPathType /\
         Glob scenario.simpleFS (p_Path p) = Some ms /\ v1beta1.m_HostPath m ∈ ms /\
         v1beta1.m_ContainerPath m = containerPath p (v1beta1.m_HostPath m) /\
         v1beta1.m_ReadOnly m = p_ReadOnly p).
Proof.
  apply (discover_members_are_matches scenario.simpleFS scenario.simple [simpleUnit]).
  - vm_compute. reflexivity.
  - apply list_elem_of_here.
Defined.

(** A host on which the pattern /dev/[ is malformed. *)
Definition badPatternFS : Host :=
  {| Glob := fun pattern => if String.eqb pattern "/dev/[" then None else Some [];
     ReadDir := fun _ => None;
     ReadFile := fun _ => None |}.


(** ** The inventory, continued *)

Lemma addDevices_lookup_id old discovered :
  forall new equal id d,
    fst (addDevices old discovered new equal) !! id = Some d ->
    (d ∈ discovered /\ dID d = id) \/ new !! id = Some d.
Proof.
  unfold addDevices.
  induction discovered as [|x discovered IH]; intros new equal id d Hd; cbn in Hd.
  - by right.
  - apply IH in Hd as [[Hd Hid]|Hd]; [left; split; [by right|done]|].
    destruct (decide (dID x = id)) as [<-|Hne].
    + rewrite lookup_insert_eq in Hd. left. injection Hd as ->. split; [by left|done].
    + rewrite lookup_insert_ne in Hd by done. by right.
Qed.

(** The map built from the discovered devices depends neither on the old map
    nor on the flag. *)
Lemma addDevices_fst old old' discovered :
  forall new equal equal',
    fst (addDevices old discovered new equal) =
    fst (addDevices old' discovered new equal').
Proof.
  unfold addDevices.
  induction discovered as [|x discovered IH]; intros new equal equal'; cbn; [done|].
  apply IH.
Qed.

Lemma refreshDevices_Ok_state host gp discovered :
  discover host (ds gp) = Ok discovered ->
  fst (refreshDevices host gp) =
  setDevices gp (fst (addDevices (devices gp) discovered ∅ false))
             (List.length discovered).
Proof.
  intros Hd. unfold refreshDevices. rewrite Hd.
  destruct (addDevices (devices gp) discovered ∅ false) as [new equal]. cbn.
  destruct (negb equal); [done|]. by destruct (removedAny (devices gp) new).
Qed.

(** X7. A successful refresh replaces the device map by the discovered devices,
    each stored under its own id: an id is in the map exactly when it was
    discovered, every record stored was discovered under that id, the gauge
    shows the number of discovered devices, and the specification and the
    allocation counter are untouched. *)
Theorem refreshDevices_stores_discovered (host : Host) (gp : GenericPlugin)
    (discovered : list device) :
  discover host (ds gp) = Ok discovered ->
  (forall id, is_Some (devices (fst (refreshDevices host gp)) !! id) <->
              exists d, d ∈ discovered /\ dID d = id) /\
  (forall id d, devices (fst (refreshDevices host gp)) !! id = Some d ->
                d ∈ discovered /\ dID d = id) /\
  deviceGauge (fst (refreshDevices host gp)) = List.length discovered /\
  ds (fst (refreshDevices host gp)) = ds gp /\
  allocationsCounter (fst (refreshDevices host gp)) = allocationsCounter gp.
Proof.
  intros Hd. rewrite (refreshDevices_Ok_state _ _ _ Hd). cbn.
  split; [|split; [|done]].
  - intros id. rewrite addDevices_dom. split; [|by left].
    intros [?|Hempty]; [done|]. rewrite lookup_empty in Hempty. by destruct Hempty.
  - intros id d Hid. apply addDevices_lookup_id in Hid as [?|Hempty]; [done|].
    by rewrite lookup_empty in Hempty.
Qed.

Lemma refreshDevices_stores_discovered_simple :
  (forall id, is_Some (devices simplePlugin !! id) <->
              exists d, d ∈ [simpleUnit] /\ dID d = id) /\
  (forall id d, devices simplePlugin !! id = Some d ->
                d ∈ [simpleUnit] /\ dID d = id) /\
  deviceGauge simplePlugin = List.length [simpleUnit] /\
  ds simplePlugin = ds (NewGenericPlugin scenario.simple) /\
  allocationsCounter simplePlugin = allocationsCounter (NewGenericPlugin scenario.simple).
Proof.
  apply (refreshDevices_stores_discovered scenario.simpleFS
           (NewGenericPlugin scenario.simple) [simpleUnit]).
  vm_compute. reflexivity.
Defined.

(** X8. A refresh that returns an error leaves the plugin as it was: the device
    map and the gauge keep the last discovery; the error is the wrapped bad
    pattern of one of the specification's paths. *)
Theorem refreshDevices_failure_keeps_plugin (host : Host) (gp : GenericPlugin)
    (e : error) :
  snd (refreshDevices host gp) = Err e ->
  fst (refreshDevices host gp) = gp /\
  exists group p,
    group ∈ Groups (ds gp) /\ p ∈ Paths group /\
    Glob host (p_Path p) = None /\
    e = ErrDiscover (ErrBadPattern (p_Path p)).
Proof.
  unfold refreshDevices.
  destruct (discover host (ds gp)) as [discovered|e'|q'] eqn:Hd.
  - destruct (addDevices (devices gp) discovered ∅ false) as [new equal]. cbn.
    destruct (negb equal); [discriminate|].
    by destruct (removedAny (devices gp) new).
  - cbn. intros [= <-]. split; [done|].
    destruct (discover_Err_inv _ _ _ Hd) as (group & p & ? & ? & ? & ->).
    by exists group, p.
  - discriminate.
Qed.

(** The plugin of "simple" once its pattern has been replaced by a malformed
    one: the devices of the earlier discovery are still there. *)
Definition brokenPlugin : GenericPlugin :=
  {| ds := plainSpec "simple" "/dev/[";
     devices := devices simplePlugin;
     deviceGauge := deviceGauge simplePlugin;
     allocationsCounter := allocationsCounter simplePlugin |}.

Lemma refreshDevices_failure_keeps_plugin_bracket :
  fst (refreshDevices badPatternFS brokenPlugin) = brokenPlugin /\
  exists group p,
    group ∈ Groups (ds brokenPlugin) /\ p ∈ Paths group /\
    Glob badPatternFS (p_Path p) = None /\
    ErrDiscover (ErrBadPattern "/dev/[") = ErrDiscover (ErrBadPattern (p_Path p)).
Proof.
  apply (refreshDevices_failure_keeps_plugin badPatternFS brokenPlugin).
  vm_compute. reflexivity.
Defined.

(** X9. On an unchanged host a second refresh changes nothing in the plugin. *)
Theorem refreshDevices_idempotent (host : Host) (gp : GenericPlugin) :
  fst (refreshDevices host (fst (refreshDevices host gp))) =
  fst (refreshDevices host gp).
Proof.
  destruct (discover host (ds gp)) as [discovered|e|q] eqn:Hd.
  - rewrite (refreshDevices_Ok_state host gp discovered Hd).
    rewrite (refreshDevices_Ok_state host _ discovered) by done.
    unfold setDevices. cbn. f_equal. apply addDevices_fst.
  - assert (Hfst : fst (refreshDevices host gp) = gp)
      by (unfold refreshDevices; by rewrite Hd).
    by rewrite !Hfst.
  - assert (Hfst : fst (refreshDevices host gp) = gp)
      by (unfold refreshDevices; by rewrite Hd).
    by rewrite !Hfst.
Qed.

(** ** [Allocate], continued *)

Lemma allocateContainer_Ok_inv devs r resp :
  allocateContainer devs r = Ok resp ->
  Forall (present_healthy devs) (v1beta1.DevicesIDs r).
Proof.
  intros Hrun. apply Forall_forall. intros id Hin.
  destruct (for_range_from_Ok_each _ _ _ _ _ Hrun _ Hin) as (k & s1 & s2 & Hb).
  simpl in Hb. destruct (devs !! id) as [d|] eqn:Hd; [|discriminate].
  destruct (String.eqb (dHealth d) v1beta1.Healthy) eqn:Hh; [|discriminate].
  exists d. split; [done|]. by apply String.eqb_eq.
Qed.

Lemma allocContainers_Ok_inv gp req res :
  allocContainers gp req = Ok res ->
  Forall (fun r => Forall (present_healthy (devices gp)) (v1beta1.DevicesIDs r))
         (v1beta1.ContainerRequests req).
Proof.
  intros Hrun. apply Forall_forall. intros r Hr.
  destruct (for_range_from_Ok_each _ _ _ _ _ Hrun _ Hr) as (k & s1 & s2 & Hb).
  simpl in Hb.
  destruct (allocateContainer (devices gp) r) as [resp| |] eqn:Hc; try discriminate.
  by apply allocateContainer_Ok_inv in Hc.
Qed.

(** The first id that is not present and Healthy stops the container's
    allocation, with the error of that id. *)
Lemma allocateContainer_first_bad devs r ids1 id ids2 :
  v1beta1.DevicesIDs r = ids1 ++ id :: ids2 ->
  Forall (present_healthy devs) ids1 ->
  ~ present_healthy devs id ->
  allocateContainer devs r =
  Err (match devs !! id with
       | Some _ => ErrNotHealthy id
       | None => ErrDoesNotExist id
       end).
Proof.
  intros Hids H1 Hbad. unfold allocateContainer, for_range. rewrite Hids.
  rewrite for_range_from_app.
  change (fun (_ : nat) (id0 : string) (resp : v1beta1.ContainerAllocateResponse) =>
            match devs !! id0 with
            | Some d =>
                if negb (String.eqb (dHealth d) v1beta1.Healthy)
                then Err (ErrNotHealthy id0)
                else Ok {| v1beta1.Devices := v1beta1.Devices resp ++ deviceSpecs d;
                           v1beta1.Mounts := v1beta1.Mounts resp ++ mounts d |}
            | None => Err (ErrDoesNotExist id0)
            end) with (fun _ : nat => allocStep devs).
  rewrite (allocSteps_Ok _ _ H1). cbn. unfold allocStep.
  destruct (devs !! id) as [d|] eqn:Hd; [|done].
  destruct (String.eqb (dHealth d) v1beta1.Healthy) eqn:Hh; [|done].
  exfalso. apply Hbad. exists d. split; [done|]. by apply String.eqb_eq.
Qed.

(** X10. A successful [Allocate] means that every requested id of every container
    request was present and Healthy; the response is then the requested
    units' device specs and mounts per container, and the plugin afterwards
    differs from the one before only in the allocation counter, which has
    grown by the number of container requests. *)
Theorem Allocate_Ok_inv (gp : GenericPlugin) (req : v1beta1.AllocateRequest)
    (res : v1beta1.AllocateResponse) :
  snd (Allocate gp req) = Ok res ->
  (forall r id, r ∈ v1beta1.ContainerRequests req ->
                id ∈ v1beta1.DevicesIDs r -> present_healthy (devices gp) id) /\
  res = {| v1beta1.ContainerResponses :=
             map (allocated (devices gp)) (v1beta1.ContainerRequests req) |} /\
  fst (Allocate gp req) =
  {| ds := ds gp; devices := devices gp; deviceGauge := deviceGauge gp;
     allocationsCounter :=
       allocationsCounter gp + List.length (v1beta1.ContainerRequests req) |}.
Proof.
  rewrite Allocate_unfold.
  destruct (allocContainers gp req) as [res'|e|q] eqn:Hrun; cbn; try discriminate.
  intros [= <-].
  pose proof (allocContainers_Ok_inv _ _ _ Hrun) as Hall.
  unfold allocContainers, for_range in Hrun.
  rewrite (allocContainers_Ok _ _ Hall) in Hrun. injection Hrun as <-. cbn.
  split; [|split; [done|by rewrite length_map]].
  intros r id Hr Hid.
  rewrite Forall_forall in Hall. specialize (Hall r Hr).
  rewrite Forall_forall in Hall. by apply Hall.
Qed.

(** X11. An error of [Allocate] leaves the plugin as it was, counter included, and
    names an id of the request that is absent from the device map or stored
    with a health other than Healthy. *)
Theorem Allocate_Err_inv (gp : GenericPlugin) (req : v1beta1.AllocateRequest)
    (e : error) :
  snd (Allocate gp req) = Err e ->
  fst (Allocate gp req) = gp /\
  exists r id,
    r ∈ v1beta1.ContainerRequests req /\ id ∈ v1beta1.DevicesIDs r /\
    ((e = ErrDoesNotExist id /\ devices gp !! id = None) \/
     (e = ErrNotHealthy id /\
      exists d, devices gp !! id = Some d /\ dHealth d <> v1beta1.Healthy)).
Proof.
  rewrite Allocate_unfold.
  destruct (allocContainers gp req) as [res'|e'|q] eqn:Hrun; cbn; try discriminate.
  intros [= <-]. split; [done|].
  destruct (for_range_from_Err _ _ _ _ _ Hrun) as (k & r & s & Hr & Hb).
  simpl in Hb.
  destruct (allocateContainer (devices gp) r) as [resp|e1|] eqn:Hc;
    try discriminate.
  cbn in Hb. injection Hb as ->.
  destruct (for_range_from_Err _ _ _ _ _ Hc) as (k' & id & s' & Hid & Hb).
  exists r, id. split; [done|]. split; [done|]. simpl in Hb.
  destruct (devices gp !! id) as [d|] eqn:Hd.
  - destruct (String.eqb (dHealth d) v1beta1.Healthy) eqn:Hh; [discriminate|].
    cbn in Hb. injection Hb as <-. right. split; [done|].
    exists d. split; [done|]. by apply String.eqb_neq.
  - injection Hb as <-. by left.
Qed.

(** X12. [Allocate] stops at the first requested id, in request order, that is not
    present and Healthy: the error is that id's, whatever follows it in the
    request, and the plugin is left as it was. *)
Theorem Allocate_first_bad_id (gp : GenericPlugin) (req : v1beta1.AllocateRequest)
    (rs1 rs2 : list v1beta1.ContainerAllocateRequest)
    (r : v1beta1.ContainerAllocateRequest) (ids1 ids2 : list string) (id : string) :
  v1beta1.ContainerRequests req = rs1 ++ r :: rs2 ->
  v1beta1.DevicesIDs r = ids1 ++ id :: ids2 ->
  Forall (fun r' => Forall (present_healthy (devices gp)) (v1beta1.DevicesIDs r')) rs1 ->
  Forall (present_healthy (devices gp)) ids1 ->
  ~ present_healthy (devices gp) id ->
  Allocate gp req =
  (gp, Err (match devices gp !! id with
            | Some _ => ErrNotHealthy id
            | None => ErrDoesNotExist id
            end)).
Proof.
  intros Hreq Hids Hrs1 Hids1 Hbad. rewrite Allocate_unfold.
  unfold allocContainers, for_range. rewrite Hreq, for_range_from_app.
  rewrite (allocContainers_Ok _ _ Hrs1). cbn.
  by rewrite (allocateContainer_first_bad _ _ _ _ _ Hids Hids1 Hbad).
Qed.

Lemma simpleUnit_present_healthy : present_healthy (devices simplePlugin) (dID simpleUnit).
Proof. exists simpleUnit. split; vm_compute; reflexivity. Qed.

Lemma Allocate_Ok_inv_twice :
  (forall r id, r ∈ v1beta1.ContainerRequests twiceRequest ->
                id ∈ v1beta1.DevicesIDs r ->
                present_healthy (devices simplePlugin) id) /\
  {| v1beta1.ContainerResponses :=
       [ {| v1beta1.Devices := deviceSpecs simpleUnit ++ deviceSpecs simpleUnit;
            v1beta1.Mounts := [] |};
         {| v1beta1.Devices := deviceSpecs simpleUnit; v1beta1.Mounts := [] |} ] |} =
  {| v1beta1.ContainerResponses :=
       map (allocated (devices simplePlugin))
           (v1beta1.ContainerRequests twiceRequest) |} /\
  fst (Allocate simplePlugin twiceRequest) =
  {| ds := ds simplePlugin; devices := devices simplePlugin;
     deviceGauge := deviceGauge simplePlugin;
     allocationsCounter :=
       allocationsCounter simplePlugin +
       List.length (v1beta1.ContainerRequests twiceRequest) |}.
Proof.
  apply (Allocate_Ok_inv simplePlugin twiceRequest).
  vm_compute. reflexivity.
Defined.

Lemma Allocate_Err_inv_unknown :
  fst (Allocate simplePlugin unknownRequest) = simplePlugin /\
  exists r id,
    r ∈ v1beta1.ContainerRequests unknownRequest /\ id ∈ v1beta1.DevicesIDs r /\
    ((ErrDoesNotExist "no-such-id" = ErrDoesNotExist id /\
      devices simplePlugin !! id = None) \/
     (ErrDoesNotExist "no-such-id" = ErrNotHealthy id /\
      exists d, devices simplePlugin !! id = Some d /\
                dHealth d <> v1beta1.Healthy)).
Proof.
  apply (Allocate_Err_inv simplePlugin unknownRequest (ErrDoesNotExist "no-such-id")).
  vm_compute. reflexivity.
Defined.

Lemma Allocate_first_bad_id_unknown :
  Allocate simplePlugin unknownRequest =
  (simplePlugin,
   Err (match devices simplePlugin !! "no-such-id" with
        | Some _ => ErrNotHealthy "no-such-id"
        | None => ErrDoesNotExist "no-such-id"
        end)).
Proof.
  apply (Allocate_first_bad_id simplePlugin unknownRequest
           [ {| v1beta1.DevicesIDs := [dID simpleUnit] |} ] []
           {| v1beta1.DevicesIDs := [dID simpleUnit; "no-such-id"] |}
           [dID simpleUnit] [] "no-such-id").
  - reflexivity.
  - reflexivity.
  - repeat constructor. apply simpleUnit_present_healthy.
  - repeat constructor. apply simpleUnit_present_healthy.
  - intros (d & Hd & _). vm_compute in Hd. discriminate.
Defined.

(** ** USB ids *)

Fixpoint all_from (fuel : nat) (n : N) (p : N -> bool) : bool :=
  match fuel with
  | O => true
  | S fuel' => p n && all_from fuel' (N.succ n) p
  end.

Lemma all_from_spec (p : N -> bool) fuel :
  forall n, all_from fuel n p = true ->
            forall m, (n <= m)%N -> (m < n + N.of_nat fuel)%N -> p m = true.
Proof.
  induction fuel as [|fuel IH]; intros n Hall m Hle Hlt; [lia|].
  cbn [all_from] in Hall. apply andb_prop in Hall as [Hn Hall].
  destruct (N.eq_dec n m) as [<-|Hne]; [done|].
  apply (IH (N.succ n)); [done|lia|lia].
Qed.

Definition newline : string := String "010" EmptyString.

(** What is checked of one id: its text has four characters, parses back to
    the id, and is read back from a file, with or without a newline after
    it. *)
Definition reads_back (id : N) : bool :=
  Nat.eqb (String.length (USBID_String id)) 4
  && bool_decide (strconv.ParseUint16 (USBID_String id) = Some id)
  && bool_decide (strconv.ParseUint16
                    (strings.dropNewlines (USBID_String id)) = Some id)
  && bool_decide (strconv.ParseUint16
                    (strings.dropNewlines (USBID_String id +:+ newline)) = Some id).

Lemma reads_back_all : all_from (N.to_nat 65536) 0 reads_back = true.
Proof. vm_compute. reflexivity. Qed.

(** X13. The text of a 16-bit id has four characters, and [readFileToUint16]
    reads it back, with or without the newline that ends a sysfs attribute
    file. *)
Theorem USBID_String_reads_back (host : Host) (path : string) (id : USBID) :
  (id < 65536)%N ->
  String.length (USBID_String id) = 4 /\
  strconv.ParseUint16 (USBID_String id) = Some id /\
  (ReadFile host path = Some (USBID_String id) \/
   ReadFile host path = Some (USBID_String id +:+ newline) ->
   readFileToUint16 host path = Some id).
Proof.
  intros Hid.
  pose proof (all_from_spec reads_back _ _ reads_back_all id) as Hok.
  rewrite N2Nat.id in Hok. specialize (Hok ltac:(lia) ltac:(lia)).
  unfold reads_back in Hok.
  apply andb_prop in Hok as [Hok H4]. apply andb_prop in Hok as [Hok H3].
  apply andb_prop in Hok as [H1 H2].
  apply Nat.eqb_eq in H1. apply bool_decide_eq_true in H2, H3, H4.
  split; [done|]. split; [done|].
  unfold readFileToUint16. by intros [-> | ->].
Qed.

(** The vendor file of the YubiKey of the USB scenario. *)
Lemma USBID_String_reads_back_yubikey :
  String.length (USBID_String 0x1050%N) = 4 /\
  strconv.ParseUint16 (USBID_String 0x1050%N) = Some 0x1050%N /\
  (ReadFile scenario.usbFS "/sys/bus/usb/devices/3-4/idVendor" =
     Some (USBID_String 0x1050%N) \/
   ReadFile scenario.usbFS "/sys/bus/usb/devices/3-4/idVendor" =
     Some (USBID_String 0x1050%N +:+ newline) ->
   readFileToUint16 scenario.usbFS "/sys/bus/usb/devices/3-4/idVendor" =
     Some 0x1050%N).
Proof.
  apply (USBID_String_reads_back scenario.usbFS
           "/sys/bus/usb/devices/3-4/idVendor" 0x1050%N).
  reflexivity.
Defined.

(** ** USB enumeration and search *)

Lemma ParseUint16_lt s n : strconv.ParseUint16 s = Some n -> (n < 65536)%N.
Proof.
  unfold strconv.ParseUint16. destruct s; [discriminate|].
  destruct (strconv.parse_hex _ _) as [m|]; [|discriminate].
  destruct (N.ltb_spec m 65536); [|discriminate]. by intros [= <-].
Qed.

Lemma readFileToUint16_lt host path n :
  readFileToUint16 host path = Some n -> (n < 65536)%N.
Proof.
  unfold readFileToUint16. destruct (ReadFile host path); [|discriminate].
  apply ParseUint16_lt.
Qed.

(** The attribute file [name] of a directory entry: always below
    [usbDevicesDir]. *)
Definition attribute (entry : DirEntry) (name : string) : string :=
  filepath.Join (filepath.Join usbDevicesDir (Name entry)) name.

Lemma queryUSBDeviceCharacteristicsByDirectory_Some host entry dev :
  queryUSBDeviceCharacteristicsByDirectory host entry = Some dev <->
  IsDir entry = true /\
  readFileToUint16 host (attribute entry usbDevicesDirVendorIDFile) = Some (Vendor dev) /\
  readFileToUint16 host (attribute entry usbDevicesDirProductIDFile) = Some (Product dev) /\
  readFileToUint16 host (attribute entry usbDevicesDirBusFile) = Some (Bus dev) /\
  readFileToUint16 host (attribute entry usbDevicesDirBusDevFile) = Some (BusDevice dev).
Proof.
  unfold queryUSBDeviceCharacteristicsByDirectory, attribute.
  destruct (IsDir entry); simpl; [|split; [discriminate|by intros [? _]]].
  set (a := readFileToUint16 host (filepath.Join _ usbDevicesDirVendorIDFile)).
  set (b := readFileToUint16 host (filepath.Join _ usbDevicesDirProductIDFile)).
  set (c := readFileToUint16 host (filepath.Join _ usbDevicesDirBusFile)).
  set (d := readFileToUint16 host (filepath.Join _ usbDevicesDirBusDevFile)).
  clearbody a b c d.
  destruct a as [vnd|], b as [prd|], c as [bus|], d as [busLoc|]; simpl;
    (split;
     [intros ?; simplify_eq; done
     |intros (_ & ? & ? & ? & ?); simplify_eq; by destruct dev]).
Qed.

(** X14. The devices enumerated are those of the directory entries that are
    directories and whose four attribute files all parse; an entry that
    fails is left out without an effect on the others. Whatever directory was
    listed, the attribute files are read below [usbDevicesDir]. All four
    numbers of an enumerated device fit 16 bits. *)
Theorem enumerateUSBDevices_devices (host : Host) (dir : string)
    (devs : list usbDevice) (dev : usbDevice) :
  enumerateUSBDevices host dir = Ok devs ->
  (dev ∈ devs <->
   exists entries entry,
     ReadDir host dir = Some entries /\ entry ∈ entries /\ IsDir entry = true /\
     readFileToUint16 host (attribute entry usbDevicesDirVendorIDFile) = Some (Vendor dev) /\
     readFileToUint16 host (attribute entry usbDevicesDirProductIDFile) = Some (Product dev) /\
     readFileToUint16 host (attribute entry usbDevicesDirBusFile) = Some (Bus dev) /\
     readFileToUint16 host (attribute entry usbDevicesDirBusDevFile) = Some (BusDevice dev)) /\
  (dev ∈ devs ->
   (Vendor dev < 65536)%N /\ (Product dev < 65536)%N /\
   (Bus dev < 65536)%N /\ (BusDevice dev < 65536)%N).
Proof.
  unfold enumerateUSBDevices.
  destruct (ReadDir host dir) as [entries|] eqn:Hdir; [|discriminate].
  intros [= <-].
  assert (Hiff : dev ∈ omap (queryUSBDeviceCharacteristicsByDirectory host) entries <->
                 exists entry, entry ∈ entries /\
                   queryUSBDeviceCharacteristicsByDirectory host entry = Some dev)
    by apply list_elem_of_omap.
  split.
  - rewrite Hiff. split.
    + intros (entry & Hin & Hq%queryUSBDeviceCharacteristicsByDirectory_Some).
      exists entries, entry. tauto.
    + intros (entries' & entry & [= <-] & Hin & Hq).
      exists entry. split; [done|].
      by apply queryUSBDeviceCharacteristicsByDirectory_Some.
  - intros (entry & _ & Hq%queryUSBDeviceCharacteristicsByDirectory_Some)%Hiff.
    destruct Hq as (_ & H1 & H2 & H3 & H4).
    repeat split; eapply readFileToUint16_lt; eassumption.
Qed.

(** X15. [searchUSBDevices] returns exactly the devices whose vendor and product
    both equal the ones asked for, in the order of the enumeration and as
    often as they occur in it; bus and device number play no part. *)
Theorem searchUSBDevices_exact (devs : list usbDevice) (vendor product : USBID) :
  (forall dev, dev ∈ searchUSBDevices devs vendor product <->
               dev ∈ devs /\ Vendor dev = vendor /\ Product dev = product) /\
  searchUSBDevices devs vendor product `sublist_of` devs /\
  (forall devs', searchUSBDevices (devs ++ devs') vendor product =
                 searchUSBDevices devs vendor product ++
                 searchUSBDevices devs' vendor product).
Proof.
  unfold searchUSBDevices. split; [|split].
  - intros dev. rewrite list_elem_of_filter. tauto.
  - apply sublist_filter.
  - intros devs'. apply filter_app.
Qed.

Lemma enumerateUSBDevices_devices_yubikey :
  let dev := {| Vendor := 0x1050%N; Product := 0x0407%N;
                Bus := 3%N; BusDevice := 0x22%N |} in
  let devs := [dev; {| Vendor := 0x1050%N; Product := 0x0407%N;
                       Bus := 4%N; BusDevice := 0x25%N |}] in
  (dev ∈ devs <->
   exists entries entry,
     ReadDir scenario.usbFS usbDevicesDir = Some entries /\
     entry ∈ entries /\ IsDir entry = true /\
     readFileToUint16 scenario.usbFS (attribute entry usbDevicesDirVendorIDFile) = Some (Vendor dev) /\
     readFileToUint16 scenario.usbFS (attribute entry usbDevicesDirProductIDFile) = Some (Product dev) /\
     readFileToUint16 scenario.usbFS (attribute entry usbDevicesDirBusFile) = Some (Bus dev) /\
     readFileToUint16 scenario.usbFS (attribute entry usbDevicesDirBusDevFile) = Some (BusDevice dev)) /\
  (dev ∈ devs ->
   (Vendor dev < 65536)%N /\ (Product dev < 65536)%N /\
   (Bus dev < 65536)%N /\ (BusDevice dev < 65536)%N).
Proof.
  apply (enumerateUSBDevices_devices scenario.usbFS usbDevicesDir).
  vm_compute. reflexivity.
Defined.

(** ** USB discovery *)






(** X17. When the USB device directory cannot be listed, discovery fails with the
    listing error as soon as the specification has a group, also when no
    group asks for a USB device; without a group it succeeds with nothing. *)
Theorem discoverUSB_ReadDir_fails (host : Host) (spec : DeviceSpec) :
  ReadDir host usbDevicesDir = None ->
  discoverUSB host spec =
  match Groups spec with
  | [] => Ok []
  | _ => Err (ErrReadDir usbDevicesDir)
  end.
Proof.
  intros Hdir. unfold discoverUSB, for_range.
  destruct (Groups spec) as [|group groups]; [done|].
  cbn [for_range_from].
  assert (Hgroup : discoverUSBGroup host group [] = Err (ErrReadDir usbDevicesDir))
    by (unfold discoverUSBGroup, enumerateUSBDevices; by rewrite Hdir).
  by rewrite Hgroup.
Qed.


Lemma discoverUSB_ReadDir_fails_simple :
  discoverUSB scenario.simpleFS scenario.simple = Err (ErrReadDir usbDevicesDir).
Proof.
  apply (discoverUSB_ReadDir_fails scenario.simpleFS scenario.simple).
  vm_compute. reflexivity.
Defined.

(** ** [USBID.UnmarshalJSON] *)

Lemma lor_shiftl_8 (a b : N) :
  (a < 256)%N -> N.lor a (N.shiftl b 8) = (a + 256 * b)%N.
Proof.
  intros Ha. rewrite N.shiftl_mul_pow2. change (2 ^ 8)%N with 256%N.
  assert (Hland : N.land a (b * 256) = 0%N).
  { apply N.bits_inj_0. intros n. rewrite N.land_spec.
    destruct (N.lt_ge_cases n 8) as [Hn|Hn].
    - change 256%N with (2 ^ 8)%N. rewrite N.mul_pow2_bits_low by done.
      apply andb_false_r.
    - destruct (N.eq_dec a 0%N) as [->|Hne]; [by rewrite N.bits_0|].
      rewrite (N.bits_above_log2 a n); [done|].
      apply N.lt_le_trans with 8%N; [|done].
      apply N.log2_lt_pow2; [lia|]. by change (2 ^ 8)%N with 256%N. }
  rewrite <- N.lxor_lor, <- N.add_nocarry_lxor by done. lia.
Qed.

(** X18. Data of at least two bytes that is neither [null] nor the empty JSON
    string sets the id to the little-endian number of its first two bytes,
    which fits 16 bits; what follows the second byte plays no part. *)
Theorem USBID_UnmarshalJSON_first_two_bytes (id : USBID) (b0 b1 : Byte.byte)
    (rest : list Byte.byte) :
  string_of_list_byte (b0 :: b1 :: rest) <> "null" ->
  string_of_list_byte (b0 :: b1 :: rest) <> emptyJSONString ->
  USBID_UnmarshalJSON id (b0 :: b1 :: rest) =
  Ok (Byte.to_N b0 + 256 * Byte.to_N b1)%N /\
  (Byte.to_N b0 + 256 * Byte.to_N b1 < 65536)%N.
Proof.
  intros Hnull Hempty. unfold USBID_UnmarshalJSON.
  apply String.eqb_neq in Hnull, Hempty. rewrite Hnull, Hempty. cbn [orb].
  pose proof (Byte.to_N_bounded b0). pose proof (Byte.to_N_bounded b1).
  split; [|lia].
  unfold LittleEndian_Uint16, index. cbn.
  f_equal. apply lor_shiftl_8. lia.
Qed.

(** The JSON text of the string 1050, quotes included. *)
Definition quoted1050 : string := String "034" ("1050" +:+ String "034" EmptyString).

Lemma USBID_UnmarshalJSON_first_two_bytes_quoted :
  USBID_UnmarshalJSON 0%N (bytes quoted1050) = Ok 0x3122%N /\ (0x3122 < 65536)%N.
Proof.
  apply (USBID_UnmarshalJSON_first_two_bytes 0%N Byte.x22 Byte.x31
           (bytes ("050" +:+ String "034" EmptyString))).
  - vm_compute. discriminate.
  - vm_compute. discriminate.
Defined.

(** X19. Data shorter than two bytes makes [UnmarshalJSON] panic on the bounds
    check of index 1. *)
Theorem USBID_UnmarshalJSON_short_panics (id : USBID) (data : list Byte.byte) :
  List.length data < 2 ->
  USBID_UnmarshalJSON id data = Panic (IndexOutOfRange 1 (List.length data)).
Proof.
  intros Hlen. destruct data as [|b0 [|b1 rest]]; [| |cbn in Hlen; lia].
  - reflexivity.
  - unfold USBID_UnmarshalJSON.
    assert (Hnull : String.eqb (string_of_list_byte [b0]) "null" = false)
      by (apply String.eqb_neq; cbn; congruence).
    assert (Hempty : String.eqb (string_of_list_byte [b0]) emptyJSONString = false)
      by (apply String.eqb_neq; cbn; unfold emptyJSONString; congruence).
    by rewrite Hnull, Hempty.
Qed.

Lemma USBID_UnmarshalJSON_short_panics_digit :
  USBID_UnmarshalJSON 0%N (bytes "5") = Panic (IndexOutOfRange 1 1).
Proof.
  apply (USBID_UnmarshalJSON_short_panics 0%N (bytes "5")).
  vm_compute. lia.
Defined.

(** * The first version of the plugin *)

(** ** Ids *)

Lemma append_cons c s t : String c s +:+ t = String c (s +:+ t).
Proof. reflexivity. Qed.

Lemma append_empty_r s : s +:+ "" = s.
Proof. induction s as [|c s IH]; [done|]. by rewrite append_cons, IH. Qed.

Lemma legacy_deviceID_unfold m i :
  legacy.deviceID m i = m +:+ String "-" (strconv.FormatUint (N.of_nat i)).
Proof.
  unfold legacy.deviceID, fmt.Sprintf.
  generalize (N.of_nat i). intros n. f_equal.
  change (String "-" (fmt.fmtInteger fmt.noFlags n +:+ "") =
          String "-" (strconv.FormatUint n)).
  unfold fmt.fmtInteger. cbn. by rewrite append_empty_r.
Qed.

Lemma LastIndex_digits (d : Decimal.uint) :
  legacy.LastIndex (NilEmpty.string_of_uint d) "-" = (-1)%Z.
Proof. induction d; cbn; [done|by rewrite IHd..]. Qed.

Lemma LastIndex_app_found s1 s2 sep :
  (0 <= legacy.LastIndex s2 sep)%Z ->
  legacy.LastIndex (s1 +:+ s2) sep =
  (Z.of_nat (String.length s1) + legacy.LastIndex s2 sep)%Z.
Proof.
  intros Hk. induction s1 as [|c s1 IH].
  - change ("" +:+ s2) with s2. cbn. lia.
  - rewrite append_cons. cbn [legacy.LastIndex String.length]. rewrite IH. destruct (Z.leb_spec 0 (Z.of_nat (String.length s1) + legacy.LastIndex s2 sep)); lia.
Qed.

Lemma LastIndex_deviceID m i :
  legacy.LastIndex (legacy.deviceID m i) "-" = Z.of_nat (String.length m).
Proof.
  rewrite legacy_deviceID_unfold.
  assert (H0 : legacy.LastIndex (String "-" (strconv.FormatUint (N.of_nat i))) "-" = 0%Z).
  { cbn [legacy.LastIndex]. unfold strconv.FormatUint. by rewrite LastIndex_digits. }
  rewrite LastIndex_app_found; rewrite H0; lia.
Qed.

Lemma substring_prefix s t :
  String.substring 0 (String.length s) (s +:+ t) = s.
Proof.
  induction s as [|c s IH].
  - change ("" +:+ t) with t. by destruct t.
  - rewrite append_cons. cbn. by rewrite IH.
Qed.

Lemma length_append s t :
  String.length (s +:+ t) = String.length s + String.length t.
Proof.
  induction s as [|c s IH]; [done|]. rewrite append_cons. cbn. by rewrite IH.
Qed.

Lemma slice_to_deviceID m i :
  legacy.slice_to (legacy.deviceID m i)
                  (legacy.LastIndex (legacy.deviceID m i) "-") = legacy.Done m.
Proof.
  rewrite LastIndex_deviceID. unfold legacy.slice_to.
  rewrite legacy_deviceID_unfold, length_append, Nat2Z.id, substring_prefix.
  destruct (Z.ltb_spec (Z.of_nat (String.length m)) 0); [lia|].
  destruct (Z.ltb_spec (Z.of_nat (String.length m +
              String.length (String "-" (strconv.FormatUint (N.of_nat i)))))
              (Z.of_nat (String.length m))); [lia|done].
Qed.

Lemma append_inj_length s s' t t' :
  String.length s = String.length s' -> s +:+ t = s' +:+ t' -> s = s' /\ t = t'.
Proof.
  revert s'. induction s as [|c s IH]; intros [|c' s'] Hlen Heq;
    try discriminate; [done|].
  rewrite !append_cons in Heq.
  injection Heq as -> Heq. injection Hlen as Hlen.
  destruct (IH _ Hlen Heq) as [-> ->]. done.
Qed.

Lemma deviceID_inj (m m' : string) (i i' : nat) :
  legacy.deviceID m i = legacy.deviceID m' i' -> m = m' /\ i = i'.
Proof.
  intros Heq.
  assert (Hlen : String.length m = String.length m').
  { apply Nat2Z.inj.
    rewrite <- (LastIndex_deviceID m i), <- (LastIndex_deviceID m' i').
    by rewrite Heq. }
  rewrite !legacy_deviceID_unfold in Heq.
  destruct (append_inj_length _ _ _ _ Hlen Heq) as [-> Hd]. split; [done|].
  injection Hd as Hd. apply FormatUint_inj in Hd. lia.
Qed.

(** X20. The id of a device determines the path that was matched and the
    repetition: different matches or repetitions have different ids. *)
Theorem legacy_deviceID_inj (m m' : string) (i i' : nat) :
  legacy.deviceID m i = legacy.deviceID m' i' -> m = m' /\ i = i'.
Proof. apply deviceID_inj. Qed.

Lemma legacy_deviceID_inj_ttyUSB :
  "/dev/ttyUSB-0" = "/dev/ttyUSB-0" /\ 1 = 1.
Proof.
  apply (legacy_deviceID_inj "/dev/ttyUSB-0" "/dev/ttyUSB-0" 1 1). reflexivity.
Defined.

(** ** Discovery *)

(** The device of match [m] for repetition [i]. *)
Definition legacyUnit (m : string) (i : nat) : v1beta1.Device :=
  {| v1beta1.ID := legacy.deviceID m i; v1beta1.Health := v1beta1.Healthy |}.

(** The devices of a list of matches: [count] per match, match by match. *)
Definition legacyUnits (count : nat) (matches : list string) : list v1beta1.Device :=
  flat_map (fun m => map (legacyUnit m) (seq 0 count)) matches.

Lemma legacy_matches_loop count matches :
  forall k devices,
    for_range_from k matches
      (fun _ m devices =>
         for_upto count
           (fun i devices =>
              Ok (devices ++ [ {| v1beta1.ID := legacy.deviceID m i;
                                  v1beta1.Health := v1beta1.Healthy |} ]))
           devices)
      devices = Ok (devices ++ legacyUnits count matches).
Proof.
  intros k devices. apply for_range_from_collect.
  intros _ m s _. unfold for_upto, for_range.
  rewrite (for_range_from_collect (seq 0 count) (fun i => [legacyUnit m i]));
    [|done].
  by rewrite flat_map_singleton.
Qed.

(** The body of the loop over the patterns. *)
Definition legacy_pattern (host : Host) (count : nat) (path : string)
    (devices : list v1beta1.Device) : outcome (list v1beta1.Device) :=
  match Glob host path with
  | None => Err (ErrBadPattern path)
  | Some matches =>
      for_range matches
        (fun _ m devices =>
           for_upto count
             (fun i devices =>
                Ok (devices ++ [ {| v1beta1.ID := legacy.deviceID m i;
                                    v1beta1.Health := v1beta1.Healthy |} ]))
             devices)
        devices
  end.

Lemma legacy_pattern_Some host count path matches devices :
  Glob host path = Some matches ->
  legacy_pattern host count path devices = Ok (devices ++ legacyUnits count matches).
Proof.
  intros Hg. unfold legacy_pattern, for_range. rewrite Hg.
  apply legacy_matches_loop.
Qed.

Lemma legacy_pattern_None host count path devices :
  Glob host path = None ->
  legacy_pattern host count path devices = Err (ErrBadPattern path).
Proof. intros Hg. unfold legacy_pattern. by rewrite Hg. Qed.

Lemma legacy_discover_unfold host spec :
  legacy.discover host spec =
  for_range_from 0 (legacy.Paths spec)
    (fun _ => legacy_pattern host (legacy.Count spec)) [].
Proof. reflexivity. Qed.

Lemma legacy_discover_from host count paths :
  forall k devices,
    match mapM (Glob host) paths with
    | Some mss =>
        for_range_from k paths (fun _ => legacy_pattern host count) devices =
        Ok (devices ++ legacyUnits count (concat mss))
    | None =>
        exists path,
          path ∈ paths /\ Glob host path = None /\
          for_range_from k paths (fun _ => legacy_pattern host count) devices =
          Err (ErrBadPattern path)
    end.
Proof.
  induction paths as [|path paths IH]; intros k devices.
  - cbn. by rewrite app_nil_r.
  - cbn [for_range_from].
    change (mapM (Glob host) (path :: paths)) with
      (ms ← Glob host path; mss ← mapM (Glob host) paths; Some (ms :: mss)).
    destruct (Glob host path) as [matches|] eqn:Hg.
    + rewrite (legacy_pattern_Some _ _ _ _ _ Hg).
      specialize (IH (S k) (devices ++ legacyUnits count matches)).
      destruct (mapM (Glob host) paths) as [mss|].
      * cbn. cbn in IH. rewrite IH. unfold legacyUnits.
        by rewrite flat_map_app, app_assoc.
      * destruct IH as (bad & Hin & Hbad & Hrun).
        exists bad. split; [by right|]. by split.
    + rewrite (legacy_pattern_None _ _ _ _ Hg).
      exists path. split; [by left|]. by split.
Qed.

Lemma legacy_discover_Some host spec mss :
  mapM (Glob host) (legacy.Paths spec) = Some mss ->
  legacy.discover host spec = Ok (legacyUnits (legacy.Count spec) (concat mss)).
Proof.
  intros Hall.
  pose proof (legacy_discover_from host (legacy.Count spec) (legacy.Paths spec) 0 []) as H.
  rewrite Hall in H. by rewrite legacy_discover_unfold.
Qed.

(** X21. When every pattern of the specification is well formed, discovery
    returns, pattern by pattern and match by match in the order of
    [filepath.Glob], [Count] Healthy devices per match whose ids are the match,
    a dash and the repetition. *)
Theorem legacy_discover_units (host : Host) (spec : legacy.DeviceSpec)
    (mss : list (list string)) :
  mapM (Glob host) (legacy.Paths spec) = Some mss ->
  legacy.discover host spec = Ok (legacyUnits (legacy.Count spec) (concat mss)).
Proof. apply legacy_discover_Some. Qed.

Lemma legacy_discover_Ok_inv host spec devs :
  legacy.discover host spec = Ok devs ->
  exists mss, mapM (Glob host) (legacy.Paths spec) = Some mss /\
              devs = legacyUnits (legacy.Count spec) (concat mss).
Proof.
  intros Hrun.
  pose proof (legacy_discover_from host (legacy.Count spec) (legacy.Paths spec) 0 []) as H.
  destruct (mapM (Glob host) (legacy.Paths spec)) as [mss|].
  - exists mss. split; [done|]. rewrite legacy_discover_unfold, H in Hrun.
    by injection Hrun as <-.
  - destruct H as (bad & _ & _ & H). rewrite legacy_discover_unfold in Hrun.
    congruence.
Qed.

Lemma elem_of_legacyUnits count matches d :
  d ∈ legacyUnits count matches <->
  exists m i, m ∈ matches /\ i < count /\ d = legacyUnit m i.
Proof.
  unfold legacyUnits. rewrite list_elem_of_In, in_flat_map. split.
  - intros (m & Hm & Hd). apply in_map_iff in Hd as (i & <- & Hi).
    apply in_seq in Hi. exists m, i. rewrite list_elem_of_In. repeat split; [done|lia].
  - intros (m & i & Hm & Hi & ->). exists m. rewrite <- list_elem_of_In.
    split; [done|]. apply in_map. apply in_seq. lia.
Qed.

Lemma NoDup_legacyUnits_ids count matches :
  NoDup matches -> NoDup (map v1beta1.ID (legacyUnits count matches)).
Proof.
  induction 1 as [|m matches Hm Hnd IH]; cbn; [constructor|].
  rewrite map_app. apply NoDup_app. split; [|split; [|done]].
  - rewrite map_map. cbn. apply NoDup_fmap_2_strong; [|apply NoDup_seq].
    intros i i' _ _ Heq. by apply deviceID_inj in Heq as [_ ?].
  - intros id Hid Hid'.
    apply list_elem_of_fmap in Hid as (d & -> & Hd).
    apply list_elem_of_fmap in Hd as (i & -> & _).
    apply list_elem_of_fmap in Hid' as (d' & Heq & Hd').
    apply elem_of_legacyUnits in Hd' as (m' & i' & Hm' & _ & ->).
    cbn in Heq. apply deviceID_inj in Heq as [-> _]. done.
Qed.

(** X22. Distinct matches give distinct ids: when every pattern is well formed
    and the patterns of the specification match no path twice, discovery
    succeeds with [Count] devices per match, no two of which share an id. *)
Theorem legacy_discover_ids_NoDup (host : Host) (spec : legacy.DeviceSpec)
    (mss : list (list string)) :
  mapM (Glob host) (legacy.Paths spec) = Some mss ->
  NoDup (concat mss) ->
  exists devs,
    legacy.discover host spec = Ok devs /\
    NoDup (map v1beta1.ID devs) /\
    List.length devs = legacy.Count spec * List.length (concat mss).
Proof.
  intros Hall Hnd. exists (legacyUnits (legacy.Count spec) (concat mss)).
  split; [by apply legacy_discover_Some|].
  split; [by apply NoDup_legacyUnits_ids|].
  clear Hnd. unfold legacyUnits.
  induction (concat mss) as [|m ms IH]; cbn; [lia|].
  rewrite length_app, length_map, length_seq, IH. lia.
Qed.

(** ** The inventory and [Allocate] *)

(** Every id of the map is a match, a dash and a repetition. *)
Definition legacy_ids_dashed (devs : gmap string v1beta1.Device) : Prop :=
  forall id dev, devs !! id = Some dev -> exists m i, id = legacy.deviceID m i.

Lemma legacy_addDevices_lookup old discovered :
  forall new equal id d,
    fst (legacy.addDevices old discovered new equal) !! id = Some d ->
    (d ∈ discovered /\ v1beta1.ID d = id) \/ new !! id = Some d.
Proof.
  unfold legacy.addDevices.
  induction discovered as [|x discovered IH]; intros new equal id d Hd; cbn in Hd.
  - by right.
  - apply IH in Hd as [[Hd Hid]|Hd]; [left; split; [by right|done]|].
    destruct (decide (v1beta1.ID x = id)) as [<-|Hne].
    + rewrite lookup_insert_eq in Hd. left. injection Hd as ->. split; [by left|done].
    + rewrite lookup_insert_ne in Hd by done. by right.
Qed.

Lemma legacy_refreshDevices_dashed host gp :
  legacy_ids_dashed (legacy.devices gp) ->
  legacy_ids_dashed (legacy.devices (fst (legacy.refreshDevices host gp))).
Proof.
  intros Hinv. unfold legacy.refreshDevices.
  destruct (legacy.discover host (legacy.ds gp)) as [discovered| |] eqn:Hd;
    [|done|done].
  pose proof (legacy_addDevices_lookup (legacy.devices gp) discovered ∅ false) as Hl.
  destruct (legacy.addDevices (legacy.devices gp) discovered ∅ false) as [new equal].
  assert (Hnew : legacy_ids_dashed new).
  { intros id dev Hid. apply Hl in Hid as [[Hin <-]|Hempty];
      [|by rewrite lookup_empty in Hempty].
    apply legacy_discover_Ok_inv in Hd as (mss & _ & ->).
    apply elem_of_legacyUnits in Hin as (m & i & _ & _ & ->). by exists m, i. }
  cbn. destruct (negb equal); [done|].
  by destruct (legacy.removedAny (legacy.devices gp) new).
Qed.

Lemma legacy_allocateIDs_no_panic devs ids :
  legacy_ids_dashed devs ->
  forall resp high,
    legacy.allocateIDs devs ids resp <> legacy.SliceBoundsOutOfRange high.
Proof.
  intros Hinv. induction ids as [|id ids IH]; intros resp high; cbn; [done|].
  destruct (devs !! id) as [dev|] eqn:Hid; [|done].
  destruct (negb _); [done|].
  destruct (Hinv _ _ Hid) as (m & i & ->).
  rewrite slice_to_deviceID. apply IH.
Qed.

Lemma legacy_allocateContainers_no_panic devs rs :
  legacy_ids_dashed devs ->
  forall res high,
    legacy.allocateContainers devs rs res <> legacy.SliceBoundsOutOfRange high.
Proof.
  intros Hinv. induction rs as [|r rs IH]; intros res high; cbn; [done|].
  destruct (legacy.allocateIDs devs (v1beta1.DevicesIDs r) _) as [resp|e|h] eqn:Hr;
    [apply IH|done|].
  by apply legacy_allocateIDs_no_panic in Hr.
Qed.

Lemma legacy_Allocate_devices gp req :
  legacy.devices (fst (legacy.Allocate gp req)) = legacy.devices gp.
Proof.
  unfold legacy.Allocate. by destruct (legacy.allocateContainers _ _ _).
Qed.

(** The states of the first version of the plugin. *)
Inductive legacy_reachable (spec : legacy.DeviceSpec) : legacy.GenericPlugin -> Prop :=
| legacy_reach_new : legacy_reachable spec (legacy.NewGenericPlugin spec)
| legacy_reach_refresh host gp :
    legacy_reachable spec gp ->
    legacy_reachable spec (fst (legacy.refreshDevices host gp))
| legacy_reach_Allocate req gp :
    legacy_reachable spec gp ->
    legacy_reachable spec (fst (legacy.Allocate gp req)).

(** X23. [Allocate] slices an id at its last dash, which panics for an id without
    one; every id the plugin ever stores has a dash, so in no state of the
    plugin and for no request does [Allocate] panic. *)
Theorem legacy_Allocate_never_panics (spec : legacy.DeviceSpec)
    (gp : legacy.GenericPlugin) :
  legacy_reachable spec gp ->
  legacy_ids_dashed (legacy.devices gp) /\
  forall req high,
    snd (legacy.Allocate gp req) <> legacy.SliceBoundsOutOfRange high.
Proof.
  intros Hreach.
  assert (Hinv : legacy_ids_dashed (legacy.devices gp)).
  { induction Hreach as [|host gp _ IH|req gp _ IH].
    - intros id dev Hid. cbn in Hid. by rewrite lookup_empty in Hid.
    - by apply legacy_refreshDevices_dashed.
    - by rewrite legacy_Allocate_devices. }
  split; [done|]. intros req high. unfold legacy.Allocate.
  destruct (legacy.allocateContainers _ _ _) as [res|e|h] eqn:Hrun; [done|done|].
  by apply legacy_allocateContainers_no_panic in Hrun.
Qed.

(** What [Allocate] answers for the device of match [m]: the match itself as
    host path and as container path, with permissions mrw. *)
Definition legacySpecOf (m : string) : v1beta1.DeviceSpec :=
  {| v1beta1.ds_HostPath := m; v1beta1.ds_ContainerPath := m;
     v1beta1.ds_Permissions := "mrw" |}.

Definition legacy_present (devs : gmap string v1beta1.Device) (mi : string * nat) : Prop :=
  exists dev, devs !! legacy.deviceID mi.1 mi.2 = Some dev /\
              v1beta1.Health dev = v1beta1.Healthy.

Lemma legacy_allocateIDs_Done devs mis :
  Forall (legacy_present devs) mis ->
  forall resp,
    legacy.allocateIDs devs (map (fun mi => legacy.deviceID mi.1 mi.2) mis) resp =
    legacy.Done {| v1beta1.Devices :=
                     v1beta1.Devices resp ++ map (fun mi => legacySpecOf mi.1) mis;
                   v1beta1.Mounts := v1beta1.Mounts resp |}.
Proof.
  induction 1 as [|[m i] mis (dev & Hdev & Hh) _ IH]; intros resp; cbn [map legacy.allocateIDs].
  - rewrite app_nil_r. by destruct resp.
  - cbn [fst snd] in *. rewrite Hdev, Hh. cbn [String.eqb negb].
    replace (String.eqb v1beta1.Healthy v1beta1.Healthy) with true by done.
    cbn [negb]. rewrite slice_to_deviceID, IH. cbn. by rewrite <- app_assoc.
Qed.

Lemma legacy_allocateContainers_Done devs rs :
  Forall (Forall (legacy_present devs)) rs ->
  forall res,
    legacy.allocateContainers devs
      (map (fun mis => {| v1beta1.DevicesIDs :=
                            map (fun mi => legacy.deviceID mi.1 mi.2) mis |}) rs) res =
    legacy.Done {| v1beta1.ContainerResponses :=
                     v1beta1.ContainerResponses res ++
                     map (fun mis => {| v1beta1.Devices :=
                                          map (fun mi => legacySpecOf mi.1) mis;
                                        v1beta1.Mounts := [] |}) rs |}.
Proof.
  induction 1 as [|mis rs Hmis _ IH]; intros res; cbn [map legacy.allocateContainers].
  - rewrite app_nil_r. by destruct res.
  - cbn [v1beta1.DevicesIDs]. rewrite (legacy_allocateIDs_Done _ _ Hmis).
    rewrite IH. cbn. by rewrite <- app_assoc.
Qed.

(** X24. [Allocate] recovers the matched host path from an id: when every
    requested id is the id of a stored Healthy device of match [m] and
    repetition [i], the response holds, per container and in request order,
    the match [m] as host path and container path, and the allocation counter
    grows by the number of containers. *)
Theorem legacy_Allocate_host_paths (gp : legacy.GenericPlugin)
    (rs : list (list (string * nat))) :
  Forall (Forall (legacy_present (legacy.devices gp))) rs ->
  legacy.Allocate gp
    {| v1beta1.ContainerRequests :=
         map (fun mis => {| v1beta1.DevicesIDs :=
                              map (fun mi => legacy.deviceID mi.1 mi.2) mis |}) rs |} =
  ({| legacy.ds := legacy.ds gp; legacy.devices := legacy.devices gp;
      legacy.deviceGauge := legacy.deviceGauge gp;
      legacy.allocationsCounter := legacy.allocationsCounter gp + List.length rs |},
   legacy.Done
     {| v1beta1.ContainerResponses :=
          map (fun mis => {| v1beta1.Devices := map (fun mi => legacySpecOf mi.1) mis;
                             v1beta1.Mounts := [] |}) rs |}).
Proof.
  intros Hall. unfold legacy.Allocate. cbn [v1beta1.ContainerRequests].
  rewrite (legacy_allocateContainers_Done _ _ Hall). cbn.
  by rewrite length_map.
Qed.

(** ** The first version on two serial adapters *)

Definition serialFS : Host := scenario.mapFS ["/dev/ttyUSB0"; "/dev/ttyUSB1"] [] [].

Definition serialSpec : legacy.DeviceSpec :=
  {| legacy.Resource := "serial"; legacy.Paths := ["/dev/ttyUSB*"]; legacy.Count := 2 |}.

Definition serialPlugin : legacy.GenericPlugin :=
  fst (legacy.refreshDevices serialFS (legacy.NewGenericPlugin serialSpec)).

Lemma legacy_discover_units_serial :
  legacy.discover serialFS serialSpec =
  Ok (legacyUnits 2 (concat [["/dev/ttyUSB0"; "/dev/ttyUSB1"]])).
Proof.
  apply (legacy_discover_units serialFS serialSpec [["/dev/ttyUSB0"; "/dev/ttyUSB1"]]).
  vm_compute. reflexivity.
Defined.

Lemma legacy_discover_ids_NoDup_serial :
  exists devs,
    legacy.discover serialFS serialSpec = Ok devs /\
    NoDup (map v1beta1.ID devs) /\
    List.length devs = 2 * List.length (concat [["/dev/ttyUSB0"; "/dev/ttyUSB1"]]).
Proof.
  apply (legacy_discover_ids_NoDup serialFS serialSpec [["/dev/ttyUSB0"; "/dev/ttyUSB1"]]).
  - vm_compute. reflexivity.
  - apply (bool_decide_unpack _). vm_compute. exact I.
Defined.

Lemma legacy_Allocate_never_panics_serial :
  legacy_ids_dashed (legacy.devices serialPlugin) /\
  forall req high,
    snd (legacy.Allocate serialPlugin req) <> legacy.SliceBoundsOutOfRange high.
Proof.
  apply (legacy_Allocate_never_panics serialSpec serialPlugin).
  apply legacy_reach_refresh, legacy_reach_new.
Defined.

Lemma serialPlugin_present m i :
  (m, i) ∈ [("/dev/ttyUSB0", 0); ("/dev/ttyUSB0", 1);
            ("/dev/ttyUSB1", 0); ("/dev/ttyUSB1", 1)] ->
  legacy_present (legacy.devices serialPlugin) (m, i).
Proof.
  intros Hin. exists (legacyUnit m i).
  repeat (apply elem_of_cons in Hin as [[= -> ->]|Hin];
          [split; vm_compute; reflexivity|]).
  by inversion Hin.
Qed.

Lemma legacy_Allocate_host_paths_serial :
  legacy.Allocate serialPlugin
    {| v1beta1.ContainerRequests :=
         [ {| v1beta1.DevicesIDs := ["/dev/ttyUSB0-1"; "/dev/ttyUSB1-0"] |} ] |} =
  ({| legacy.ds := serialSpec; legacy.devices := legacy.devices serialPlugin;
      legacy.deviceGauge := 4; legacy.allocationsCounter := 1 |},
   legacy.Done
     {| v1beta1.ContainerResponses :=
          [ {| v1beta1.Devices := [legacySpecOf "/dev/ttyUSB0";
                                   legacySpecOf "/dev/ttyUSB1"];
               v1beta1.Mounts := [] |} ] |}).
Proof.
  apply (legacy_Allocate_host_paths serialPlugin
           [[("/dev/ttyUSB0", 1); ("/dev/ttyUSB1", 0)]]).
  repeat constructor; apply serialPlugin_present; set_solver.
Defined.

(** * [ListAndWatch] *)

(** The plugin after a refresh on [host]. *)
Definition refreshed (host : Host) (gp : GenericPlugin) : GenericPlugin :=
  fst (refreshDevices host gp).

(** A successful refresh of a plugin that has itself been refreshed: the
    result is the refresh of the original plugin, reported as "changed". *)
Lemma refreshDevices_refreshed host host' gp discovered :
  discover host (ds gp) = Ok discovered ->
  refreshDevices host (refreshed host' gp) = (refreshed host gp, Ok false).
Proof.
  intros Hd.
  assert (Hds : ds (refreshed host' gp) = ds gp /\
                allocationsCounter (refreshed host' gp) = allocationsCounter gp).
  { unfold refreshed, refreshDevices.
    destruct (discover host' (ds gp)) as [discovered'| |]; [|done|done].
    destruct (addDevices (devices gp) discovered' ∅ false) as [new equal]. cbn.
    destruct (negb equal); [done|]. by destruct (removedAny (devices gp) new). }
  destruct Hds as [Hds Hcounter].
  pose proof (refreshDevices_never_unchanged host (refreshed host' gp)) as Hnever.
  assert (Hfst : fst (refreshDevices host (refreshed host' gp)) = refreshed host gp).
  { unfold refreshed at 2.
    rewrite (refreshDevices_Ok_state host gp discovered Hd).
    rewrite (refreshDevices_Ok_state host _ discovered) by (by rewrite Hds).
    unfold setDevices. rewrite Hds, Hcounter. f_equal. apply addDevices_fst. }
  assert (Hsnd : exists b, snd (refreshDevices host (refreshed host' gp)) = Ok b).
  { unfold refreshDevices. rewrite Hds, Hd.
    destruct (addDevices _ discovered ∅ false) as [new equal]. cbn.
    destruct (negb equal); [by eauto|].
    destruct (removedAny _ new); by eauto. }
  destruct Hsnd as [[|] Hsnd]; [congruence|].
  destruct (refreshDevices host (refreshed host' gp)) as [gp' res].
  cbn in *. by subst.
Qed.

Lemma last_cons_default {A : Type} (l : list A) :
  forall a d, List.last (a :: l) d = List.last l a.
Proof.
  induction l as [|b l IH]; intros a d; [done|].
  change (List.last (a :: b :: l) d) with (List.last (b :: l) d).
  by rewrite !IH.
Qed.

Lemma watch_all_refreshed sendFails gp ticks :
  (forall n, sendFails n = false) ->
  Forall (fun host => exists discovered, discover host (ds gp) = Ok discovered) ticks ->
  forall host sent,
    watch sendFails ticks false (refreshed host gp) sent =
    (refreshed (List.last ticks host) gp,
     sent ++ map (fun host => listDevices (refreshed host gp)) (host :: ticks),
     Waiting).
Proof.
  intros Hsend. induction 1 as [|tick ticks [discovered Hd] _ IH]; intros host sent.
  - cbn. by rewrite Hsend.
  - cbn [watch negb]. rewrite Hsend.
    rewrite (refreshDevices_refreshed tick host gp discovered Hd).
    rewrite IH. cbn [map]. rewrite <- app_assoc. cbn [app].
    by rewrite last_cons_default.
Qed.

(** X25. While discovery succeeds and the stream accepts the responses,
    [ListAndWatch] delivers a response after the first refresh and after
    every tick, whether or not the devices have changed: each response lists
    the devices discovered at that time, and the call is then waiting for
    the next tick with the plugin as the last refresh left it. *)
Theorem ListAndWatch_responds_every_tick (sendFails : nat -> bool) (host : Host)
    (ticks : list Host) (gp : GenericPlugin) :
  (forall n, sendFails n = false) ->
  Forall (fun host => exists discovered, discover host (ds gp) = Ok discovered)
         (host :: ticks) ->
  ListAndWatch sendFails host ticks gp =
  (refreshed (List.last ticks host) gp,
   map (fun host => listDevices (refreshed host gp)) (host :: ticks),
   Waiting).
Proof.
  intros Hsend Hall. apply Forall_cons in Hall as [[discovered Hd] Hticks].
  unfold ListAndWatch.
  assert (Hfirst : exists b, refreshDevices host gp = (refreshed host gp, Ok b)).
  { unfold refreshed, refreshDevices. rewrite Hd.
    destruct (addDevices _ discovered ∅ false) as [new equal]. cbn.
    destruct (negb equal); [by eauto|].
    destruct (removedAny _ new); by eauto. }
  destruct Hfirst as [b ->].
  by rewrite (watch_all_refreshed sendFails gp ticks Hsend Hticks host []).
Qed.

Lemma watch_Err sendFails gp good bad rest e :
  (forall n, sendFails n = false) ->
  Forall (fun host => exists discovered, discover host (ds gp) = Ok discovered) good ->
  discover bad (ds gp) = Err e ->
  forall host sent,
    watch sendFails (good ++ bad :: rest) false (refreshed host gp) sent =
    (refreshed (List.last good host) gp,
     sent ++ map (fun host => listDevices (refreshed host gp)) (host :: good),
     Returned (ErrDiscover e)).
Proof.
  intros Hsend Hgood Hbad.
  induction Hgood as [|tick good [discovered Hd] _ IH]; intros host sent.
  - cbn [app watch negb]. rewrite Hsend.
    assert (Hds : ds (refreshed host gp) = ds gp).
    { unfold refreshed, refreshDevices.
      destruct (discover host (ds gp)) as [discovered'| |]; [|done|done].
      destruct (addDevices (devices gp) discovered' ∅ false) as [new equal]. cbn.
      destruct (negb equal); [done|]. by destruct (removedAny (devices gp) new). }
    unfold refreshDevices at 1. by rewrite Hds, Hbad.
  - cbn [app watch negb]. rewrite Hsend.
    rewrite (refreshDevices_refreshed tick host gp discovered Hd).
    rewrite IH. cbn [map]. rewrite <- app_assoc. cbn [app].
    by rewrite last_cons_default.
Qed.

(** X26. [ListAndWatch] returns with the first failure of discovery: the
    responses of the refreshes before it have been delivered, the plugin is
    as the last successful refresh left it, and the error is the wrapped
    error of discovery; the ticks after the failure play no part. *)
Theorem ListAndWatch_returns_first_error (sendFails : nat -> bool) (host : Host)
    (good rest : list Host) (bad : Host) (gp : GenericPlugin) (e : error) :
  (forall n, sendFails n = false) ->
  Forall (fun host => exists discovered, discover host (ds gp) = Ok discovered)
         (host :: good) ->
  discover bad (ds gp) = Err e ->
  ListAndWatch sendFails host (good ++ bad :: rest) gp =
  (refreshed (List.last good host) gp,
   map (fun host => listDevices (refreshed host gp)) (host :: good),
   Returned (ErrDiscover e)).
Proof.
  intros Hsend Hall Hbad. apply Forall_cons in Hall as [[discovered Hd] Hgood].
  unfold ListAndWatch.
  assert (Hfirst : exists b, refreshDevices host gp = (refreshed host gp, Ok b)).
  { unfold refreshed, refreshDevices. rewrite Hd.
    destruct (addDevices _ discovered ∅ false) as [new equal]. cbn.
    destruct (negb equal); [by eauto|].
    destruct (removedAny _ new); by eauto. }
  destruct Hfirst as [b ->].
  by rewrite (watch_Err sendFails gp good bad rest e Hsend Hgood Hbad host []).
Qed.

Lemma ListAndWatch_responds_every_tick_simple :
  ListAndWatch (fun _ => false) scenario.simpleFS
    [scenario.simpleFS; scenario.simpleFS] (NewGenericPlugin scenario.simple) =
  (refreshed (List.last [scenario.simpleFS; scenario.simpleFS] scenario.simpleFS)
             (NewGenericPlugin scenario.simple),
   map (fun host => listDevices (refreshed host (NewGenericPlugin scenario.simple)))
       [scenario.simpleFS; scenario.simpleFS; scenario.simpleFS],
   Waiting).
Proof.
  apply (ListAndWatch_responds_every_tick (fun _ => false) scenario.simpleFS
           [scenario.simpleFS; scenario.simpleFS] (NewGenericPlugin scenario.simple)).
  - reflexivity.
  - repeat constructor; exists [simpleUnit]; exact discover_simple.
Defined.

Lemma ListAndWatch_returns_first_error_bracket :
  ListAndWatch (fun _ => false) scenario.simpleFS
    ([scenario.simpleFS] ++ badPatternFS :: [scenario.simpleFS])
    (NewGenericPlugin (plainSpec "bad" "/dev/[")) =
  (refreshed (List.last [scenario.simpleFS] scenario.simpleFS)
             (NewGenericPlugin (plainSpec "bad" "/dev/[")),
   map (fun host => listDevices (refreshed host (NewGenericPlugin (plainSpec "bad" "/dev/["))))
       [scenario.simpleFS; scenario.simpleFS],
   Returned (ErrDiscover (ErrBadPattern "/dev/["))).
Proof.
  apply (ListAndWatch_returns_first_error (fun _ => false) scenario.simpleFS
           [scenario.simpleFS] [scenario.simpleFS] badPatternFS
           (NewGenericPlugin (plainSpec "bad" "/dev/[")) (ErrBadPattern "/dev/[")).
  - reflexivity.
  - repeat constructor; exists []; vm_compute; reflexivity.
  - vm_compute. reflexivity.
Defined.

(** * Path discovery when a pattern matches nothing *)

Lemma trackLength_last lens m :
  forall n, fold_left trackLength (lens ++ [m]) n = 0 <-> m = 0.
Proof.
  induction lens as [|l lens IH]; intros n; cbn [app fold_left]; [|apply IH].
  unfold trackLength. destruct (Nat.eqb_spec n 0) as [->|Hn]; cbn [orb]; [done|].
  destruct (Nat.ltb_spec m n); split; lia.
Qed.

Lemma column_None rows i (row : list string) :
  row ∈ rows -> row !! i = None -> column rows i = None.
Proof.
  intros Hin Hrow. destruct (column rows i) as [hs|] eqn:Hcol; [|done].
  assert (His : is_Some (column rows i)) by eauto.
  apply column_is_Some in His. rewrite Forall_forall in His.
  specialize (His row Hin). apply lookup_lt_is_Some in His.
  rewrite Hrow in His. by destruct His.
Qed.

Lemma unitLoops_first_panics group paths n devs :
  List.length (Paths group) = List.length paths ->
  column paths 0 = None -> 0 < n -> 0 < Count group ->
  exists q, unitLoops group paths n devs = Panic q.
Proof.
  intros Hlen Hcol Hn Hcount.
  pose proof (newDevice_spec group paths 0 0 Hlen) as Hnew.
  rewrite Hcol in Hnew. destruct Hnew as [q Hq]. exists q.
  unfold unitLoops, for_upto, for_range.
  destruct n as [|n]; [lia|]. destruct (Count group) as [|c]; [lia|].
  cbn [seq for_range_from]. by rewrite Hq.
Qed.

Lemma unitLoops_no_repetition group paths n devs :
  Count group = 0 -> unitLoops group paths n devs = Ok devs.
Proof.
  intros Hcount. unfold unitLoops, for_upto, for_range. rewrite Hcount.
  cbn [seq].
  assert (H : forall (l : list nat) k,
             for_range_from k l
               (fun (_ i : nat) (devices : list device) =>
                  for_range_from 0 []
                    (fun (_ j : nat) (devices0 : list device) =>
                       d ← newDevice group paths i j; Ok (devices0 ++ [d]))
                    devices) devs = Ok devs); [|apply H].
  induction l as [|i l IH]; intros k; [done|]. cbn. apply IH.
Qed.

(** X27. A group with a pattern that matches nothing: when its last pattern is one
    that matches nothing, or the group has no repetition, the group adds no
    unit; when its last pattern has a match and the group has a repetition,
    discovery panics on the missing match. *)
Theorem discoverGroup_pattern_without_match (host : Host) (group : Group)
    (mss : list (list string)) (devs : list device) :
  globAll host (Paths group) = Some mss ->
  [] ∈ mss ->
  (List.last mss [] = [] \/ Count group = 0 ->
   discoverGroup host group devs = Ok devs) /\
  (List.last mss [] <> [] -> 0 < Count group ->
   exists q, discoverGroup host group devs = Panic q).
Proof.
  intros Hall Hempty.
  assert (Hrun : discoverGroup host group devs =
                 unitLoops group (map sort.Strings mss)
                   (fold_left trackLength (map (@List.length string) mss) 0) devs).
  { rewrite discoverGroup_unfold, (globPaths_Some _ _ _ Hall). cbn.
    by rewrite map_Strings_length. }
  rewrite Hrun.
  assert (Hlen : List.length (Paths group) = List.length (map sort.Strings mss)).
  { rewrite length_map. symmetry. by apply length_mapM in Hall. }
  assert (Hsnoc : exists front, mss = front ++ [List.last mss []]).
  { destruct mss as [|ms mss] using rev_ind; [by inversion Hempty|].
    exists mss. by rewrite last_last. }
  destruct Hsnoc as [front Hsnoc].
  assert (Htrack : fold_left trackLength (map (@List.length string) mss) 0 = 0 <->
                   List.last mss [] = []).
  { rewrite Hsnoc at 1. rewrite map_app. cbn [map].
    rewrite trackLength_last. by destruct (List.last mss []). }
  split.
  - intros [Hlast|Hcount]; [|by apply unitLoops_no_repetition].
    apply Htrack in Hlast. rewrite Hlast. done.
  - intros Hlast Hcount. apply unitLoops_first_panics; [done| | |done].
    + apply (column_None _ _ []); [|done].
      apply (list_elem_of_fmap_2 sort.Strings) in Hempty. exact Hempty.
    + destruct (fold_left trackLength (map (@List.length string) mss) 0) eqn:Hn; [|lia].
      destruct Hlast. by apply Htrack.
Qed.

(** The group of "only one exists" with its two patterns exchanged. *)
Definition existsFirst : Group :=
  Default_Group (scenario.pathGroup [scenario.path "/dev/does/exist" "";
                                     scenario.path "/dev/does/not/exist" ""]).

Lemma discoverGroup_pattern_without_match_exists_first :
  (List.last [["/dev/does/exist"]; []] [] = [] \/ Count existsFirst = 0 ->
   discoverGroup scenario.onlyOneExistsFS existsFirst [] = Ok []) /\
  (List.last [["/dev/does/exist"]; []] [] <> [] -> 0 < Count existsFirst ->
   exists q, discoverGroup scenario.onlyOneExistsFS existsFirst [] = Panic q).
Proof.
  apply (discoverGroup_pattern_without_match scenario.onlyOneExistsFS existsFirst
           [["/dev/does/exist"]; []] []).
  - vm_compute. reflexivity.
  - apply list_elem_of_further, list_elem_of_here.
Defined.

(** * Discovery does not depend on the order of [filepath.Glob] *)

Lemma leb_trans (s t u : string) :
  String.leb s t = true -> String.leb t u = true -> String.leb s u = true.
Proof.
  unfold String.leb. intros Hst Htu.
  pose proof (OrdersEx.String_as_OT.compare_spec s t) as Hs.
  pose proof (OrdersEx.String_as_OT.compare_spec t u) as Ht.
  pose proof (OrdersEx.String_as_OT.compare_spec s u) as Hu.
  change OrdersEx.String_as_OT.compare with String.compare in *.
  unfold OrdersEx.String_as_OT.eq in *.
  destruct Hs as [->|Hlt1|]; [done| |discriminate].
  destruct Ht as [<-|Hlt2|]; [|  |discriminate].
  - by destruct Hu as [?|?|Hgt]; [| |destruct (StrictOrder_Asymmetric OrdersEx.String_as_OT.lt_strorder _ _ Hlt1 Hgt)].
  - pose proof (StrictOrder_Transitive (R := OrdersEx.String_as_OT.lt) _ _ _ Hlt1 Hlt2) as Hlt.
    destruct Hu as [->|?|Hgt]; [done|done|].
    destruct (StrictOrder_Asymmetric OrdersEx.String_as_OT.lt_strorder _ _ Hlt Hgt).
Qed.

Lemma Sorted_Permutation_eq (l1 l2 : list string) :
  Sorted (fun a b => String.leb a b = true) l1 ->
  Sorted (fun a b => String.leb a b = true) l2 ->
  l1 ≡ₚ l2 -> l1 = l2.
Proof.
  intros H1 H2.
  apply Sorted_StronglySorted in H1; [|intros a b c; apply leb_trans].
  apply Sorted_StronglySorted in H2; [|intros a b c; apply leb_trans].
  revert l2 H2. induction H1 as [|a l1 Hl1 IH Ha]; intros l2 H2 Hperm.
  - by apply Permutation_nil_l in Hperm.
  - destruct H2 as [|b l2 Hl2 Hb]; [by apply Permutation_nil_r in Hperm|].
    assert (a = b) as <-.
    { assert (Hain : a ∈ b :: l2) by (rewrite <- Hperm; by left).
      assert (Hbin : b ∈ a :: l1) by (rewrite Hperm; by left).
      apply elem_of_cons in Hain as [?|Hain]; [done|].
      apply elem_of_cons in Hbin as [?|Hbin]; [done|].
      rewrite Forall_forall in Ha, Hb. apply String.leb_antisym.
      - by apply Ha.
      - by apply Hb. }
    f_equal. apply IH; [done|]. by apply Permutation_cons_inv in Hperm.
Qed.

Lemma Strings_Permutation_eq (l1 l2 : list string) :
  l1 ≡ₚ l2 -> sort.Strings l1 = sort.Strings l2.
Proof.
  intros Hperm. apply Sorted_Permutation_eq; [apply Strings_Sorted..|].
  by rewrite !Strings_Permutation.
Qed.

Lemma for_range_from_ext {A St : Type} (l : list A)
    (body1 body2 : nat -> A -> St -> outcome St) :
  (forall k a s, a ∈ l -> body1 k a s = body2 k a s) ->
  forall k s, for_range_from k l body1 s = for_range_from k l body2 s.
Proof.
  induction l as [|a l IH]; intros Hbody k s; cbn; [done|].
  rewrite Hbody by (by left). destruct (body2 k a s) as [s'| |]; cbn; [|done|done].
  apply IH. intros. apply Hbody. by right.
Qed.

(** Two hosts show the same matches for a pattern: both reject it, or both
    return the same paths, in whatever order. *)
Definition same_matches (host1 host2 : Host) (pattern : string) : Prop :=
  match Glob host1 pattern, Glob host2 pattern with
  | Some ms1, Some ms2 => ms1 ≡ₚ ms2
  | None, None => True
  | _, _ => False
  end.

(** X28. Discovery sorts what [filepath.Glob] returns, so its result, the ids
    included, does not depend on the order in which the matches of a pattern
    are returned. *)
Theorem discover_Glob_order (host1 host2 : Host) (spec : DeviceSpec) :
  (forall group p, group ∈ Groups spec -> p ∈ Paths group ->
                   same_matches host1 host2 (p_Path p)) ->
  discover host1 spec = discover host2 spec.
Proof.
  intros Hsame. unfold discover, for_range.
  apply for_range_from_ext. intros _ group devs Hgroup.
  rewrite !discoverGroup_unfold.
  assert (Hglob : globPaths host1 group = globPaths host2 group); [|by rewrite Hglob].
  unfold globPaths, for_range. apply for_range_from_ext.
  intros k p [paths n] Hp. specialize (Hsame group p Hgroup Hp).
  unfold same_matches in Hsame. unfold globPath.
  destruct (Glob host1 (p_Path p)) as [ms1|], (Glob host2 (p_Path p)) as [ms2|];
    [|done|done|done].
  by rewrite (Strings_Permutation_eq ms1 ms2 Hsame).
Qed.

(** The host of the serial adapters with its paths in another order. *)
Definition ttyUSB_reordered : Host :=
  scenario.mapFS ["/dev/video1"; "/dev/ttyUSB0"; "/dev/ttyUSB1"; "/dev/ttyUSB2";
                  "/dev/video0"; "/dev/ttyUSB3"] [] [].

Lemma discover_Glob_order_ttyUSB :
  discover scenario.ttyUSB {| dsName := "capped"; Groups := [scenario.capped] |} =
  discover ttyUSB_reordered {| dsName := "capped"; Groups := [scenario.capped] |}.
Proof.
  apply (discover_Glob_order scenario.ttyUSB ttyUSB_reordered
           {| dsName := "capped"; Groups := [scenario.capped] |}).
  intros group p Hgroup Hp.
  apply list_elem_of_singleton in Hgroup as ->.
  cbn in Hp.
  repeat (apply elem_of_cons in Hp as [->|Hp];
          [unfold same_matches; vm_compute;
           apply (bool_decide_unpack _); vm_compute; exact I|]).
  by inversion Hp.
Defined.

(** * Bus paths *)

(** The decimal digits of [n], padded with zeros to three characters. *)
Definition pad3 (n : N) : string :=
  fmt.repeat_char "0" (3 - String.length (strconv.FormatUint n)) +:+ strconv.FormatUint n.

Lemma length_repeat_char c n : String.length (fmt.repeat_char c n) = n.
Proof. induction n as [|n IH]; cbn; [done|]. by rewrite IH. Qed.

Lemma fmtInteger_plus04 n :
  fmt.fmtInteger {| fmt.plus := true; fmt.minus := false;
                    fmt.zero := true; fmt.wid := Some 4 |} n =
  String "+" (pad3 n).
Proof.
  unfold fmt.fmtInteger, pad3. cbn [fmt.plus fmt.minus fmt.zero fmt.wid].
  change (4 - 1) with 3.
  set (padded := fmt.repeat_char "0" (3 - String.length (strconv.FormatUint n)) +:+
                 strconv.FormatUint n).
  assert (Hlen : 3 <= String.length padded).
  { unfold padded. rewrite length_append, length_repeat_char. lia. }
  cbn [String.length].
  replace (4 - S (String.length padded)) with 0 by lia. done.
Qed.

Lemma BusPath_pad3 (dev : usbDevice) :
  BusPath dev =
  "/dev/bus/usb/+" +:+ pad3 (Bus dev) +:+ "/+" +:+ pad3 (BusDevice dev).
Proof.
  unfold BusPath, fmt.Sprintf, usbDevBus.
  cbv -[fmt.fmtInteger append Bus BusDevice pad3].
  rewrite !fmtInteger_plus04, append_empty_r. reflexivity.
Qed.

(** X29. Every bus path carries a plus sign before the bus number and before the
    device number, each of which is printed with at least three digits. *)
Theorem BusPath_plus_signs (dev : usbDevice) :
  BusPath dev =
  "/dev/bus/usb/+" +:+ pad3 (Bus dev) +:+ "/+" +:+ pad3 (BusDevice dev).
Proof. apply BusPath_pad3. Qed.

(** The characters of a string. *)
Fixpoint chars (s : string) : list ascii :=
  match s with
  | EmptyString => []
  | String c s' => c :: chars s'
  end.

Lemma chars_append s t : chars (s +:+ t) = chars s ++ chars t.
Proof.
  induction s as [|c s IH]; [done|]. rewrite append_cons. cbn. by rewrite IH.
Qed.

Lemma chars_digits (d : Decimal.uint) :
  "/"%char ∉ chars (NilEmpty.string_of_uint d).
Proof.
  induction d; cbn; [apply not_elem_of_nil|..];
    (apply not_elem_of_cons; split; [discriminate|done]).
Qed.

Lemma chars_pad3 n : "/"%char ∉ chars (pad3 n).
Proof.
  unfold pad3. rewrite chars_append. apply not_elem_of_app. split.
  - generalize (3 - String.length (strconv.FormatUint n)). intros k.
    induction k as [|k IH]; cbn; [apply not_elem_of_nil|].
    apply not_elem_of_cons. by split.
  - apply chars_digits.
Qed.

(** Two texts that agree and are cut at the first occurrence of a character
    agree before and after it. *)
Lemma append_split_at c s s' t t' :
  c ∉ chars s -> c ∉ chars s' ->
  s +:+ String c t = s' +:+ String c t' -> s = s' /\ t = t'.
Proof.
  revert s'. induction s as [|a s IH]; intros [|a' s'] Hs Hs' Heq.
  - by injection Heq as ->.
  - change ("" +:+ String c t) with (String c t) in Heq.
    rewrite append_cons in Heq. injection Heq as <- _.
    cbn in Hs'. by apply not_elem_of_cons in Hs' as [? _].
  - change ("" +:+ String c t') with (String c t') in Heq.
    rewrite append_cons in Heq. injection Heq as -> _.
    cbn in Hs. by apply not_elem_of_cons in Hs as [? _].
  - rewrite !append_cons in Heq. injection Heq as -> Heq.
    cbn in Hs, Hs'. apply not_elem_of_cons in Hs as [_ Hs].
    apply not_elem_of_cons in Hs' as [_ Hs'].
    by destruct (IH _ Hs Hs' Heq) as [-> ->].
Qed.

(** Reading a padded number back. *)
Definition unpad (s : string) : option N :=
  N.of_uint <$> NilEmpty.uint_of_string s.

Lemma unpad_zeros k s : unpad (fmt.repeat_char "0" k +:+ s) = unpad s.
Proof.
  induction k as [|k IH]; [done|].
  cbn [fmt.repeat_char]. rewrite append_cons. unfold unpad in *.
  cbn [NilEmpty.uint_of_string].
  destruct (NilEmpty.uint_of_string (fmt.repeat_char "0" k +:+ s)) as [u|],
           (NilEmpty.uint_of_string s) as [u'|]; cbn in *; try congruence.
  exact IH.
Qed.

Lemma unpad_pad3 n : unpad (pad3 n) = Some n.
Proof.
  unfold pad3. rewrite unpad_zeros. unfold unpad, strconv.FormatUint.
  rewrite NilEmpty.usu. cbn. by rewrite DecimalN.Unsigned.of_to.
Qed.

(** X30. The bus path determines the bus and the device number: two devices at
    different places on the bus never have the same path. *)
Theorem BusPath_inj (dev dev' : usbDevice) :
  BusPath dev = BusPath dev' ->
  Bus dev = Bus dev' /\ BusDevice dev = BusDevice dev'.
Proof.
  rewrite !BusPath_pad3. intros Heq.
  apply String.app_inj in Heq.
  apply append_split_at in Heq as [Hbus Hdev]; [|apply chars_pad3..].
  injection Hdev as Hdev.
  apply (f_equal unpad) in Hbus, Hdev. rewrite !unpad_pad3 in Hbus, Hdev.
  split; congruence.
Qed.

Lemma BusPath_inj_yubikey :
  3%N = 3%N /\ 0x22%N = 0x22%N.
Proof.
  apply (BusPath_inj
           {| Vendor := 0x1050%N; Product := 0x0407%N; Bus := 3%N; BusDevice := 0x22%N |}
           {| Vendor := 0x046d%N; Product := 0xc52b%N; Bus := 3%N; BusDevice := 0x22%N |}).
  vm_compute. reflexivity.
Defined.
